(** * Authorization engine: role hierarchy flattening and permission checks

    A shallow embedding of [PermissionManager] (the permission manager
    class) and of [config.ts] (the role / permission enumerations and the
    two static tables), followed by the properties of the closures the
    constructor caches and of the query methods that read them.

    The engine is stated for any type of roles and of permissions with
    decidable equality and for any pair of tables; [Config] instantiates
    them with the enumerations and the tables of [config.ts].

    Modelling conventions.
    - A TypeScript [Set<T>] is a [gset T]; a [Map<K, V>] and a table
      object [Record<K, V[]>] are [gmap K _].  A key that is absent from a
      table reads as [undefined] in the source and as [None] here.
    - Arrays are lists.
    - [computeRoleHierarchy] mutates the [visited] set it is handed and
      hands the same set to its recursive calls; the embedding passes the
      set in and returns the updated set next to the result.
    - [undefined] as a result is [None] (see [getMaxRole]). *)

From stdpp Require Import gmap list relations.

#[local] Set Warnings "-clear-no-such-hyp".

(** ** config.ts *)

Module Config.

Inductive Role : Type :=
  | SUPER_ADMIN
  | ADMIN
  | MANAGER
  | PREMIUM_USER
  | USER.

Inductive Permission : Type :=
  | PRODUCT_CREATE
  | PRODUCT_READ
  | PRODUCT_UPDATE
  | PRODUCT_DELETE
  | PRODUCT_REVIEW
  | USER_CREATE
  | USER_READ
  | USER_UPDATE
  | USER_DELETE.

#[global] Instance Role_eq_dec : EqDecision Role.
Proof. solve_decision. Defined.

#[global] Instance Permission_eq_dec : EqDecision Permission.
Proof. solve_decision. Defined.

Definition Role_to_nat (r : Role) : nat :=
  match r with
  | SUPER_ADMIN => 0 | ADMIN => 1 | MANAGER => 2 | PREMIUM_USER => 3 | USER => 4
  end.

Definition Role_of_nat (n : nat) : Role :=
  match n with
  | 0 => SUPER_ADMIN | 1 => ADMIN | 2 => MANAGER | 3 => PREMIUM_USER | _ => USER
  end.

Definition Permission_to_nat (p : Permission) : nat :=
  match p with
  | PRODUCT_CREATE => 0 | PRODUCT_READ => 1 | PRODUCT_UPDATE => 2
  | PRODUCT_DELETE => 3 | PRODUCT_REVIEW => 4
  | USER_CREATE => 5 | USER_READ => 6 | USER_UPDATE => 7 | USER_DELETE => 8
  end.

Definition Permission_of_nat (n : nat) : Permission :=
  match n with
  | 0 => PRODUCT_CREATE | 1 => PRODUCT_READ | 2 => PRODUCT_UPDATE
  | 3 => PRODUCT_DELETE | 4 => PRODUCT_REVIEW
  | 5 => USER_CREATE | 6 => USER_READ | 7 => USER_UPDATE | _ => USER_DELETE
  end.

#[global] Instance Role_countable : Countable Role.
Proof. refine (inj_countable' Role_to_nat Role_of_nat _). by intros []. Defined.

#[global] Instance Permission_countable : Countable Permission.
Proof.
  refine (inj_countable' Permission_to_nat Permission_of_nat _). by intros [].
Defined.

(** Role hierarchy definition: each role and the roles it directly
    inherits from. *)
Definition RoleHierarchy : gmap Role (list Role) :=
  list_to_map
    [ (SUPER_ADMIN, [ADMIN]);
      (ADMIN, [MANAGER]);
      (MANAGER, [PREMIUM_USER]);
      (PREMIUM_USER, [USER]);
      (USER, []) ].

(** Role-based permissions definition: each role and the permissions
    granted to it directly. *)
Definition RoleBasedPermissions : gmap Role (list Permission) :=
  list_to_map
    [ (SUPER_ADMIN, []);
      (ADMIN, [PRODUCT_DELETE; USER_DELETE]);
      (MANAGER,
        [PRODUCT_CREATE; PRODUCT_UPDATE; USER_CREATE; USER_UPDATE; USER_READ]);
      (PREMIUM_USER, [PRODUCT_REVIEW]);
      (USER, [PRODUCT_READ]) ].

End Config.

(** ** The permission manager *)

Section PermissionManager.
Context `{Countable Role, Countable Permission}.

(** The two tables the class imports from the configuration. *)
Variable RoleHierarchy : gmap Role (list Role).
Variable RoleBasedPermissions : gmap Role (list Permission).

Record PermissionContext : Type := {
  roles : list Role;
  permissions : list Permission;
}.

Record PermissionManager : Type := {
  context : PermissionContext;
  cachedRoleHierarchy : gmap Role (gset Role);
  cachedRolePermissions : gmap Role (gset Permission);
}.

(** [xs.forEach((x) => result.add(x))] over an array. *)
Definition addEach `{Countable A} (xs : list A) (result : gset A) : gset A :=
  foldl (λ result x, {[x]} ∪ result) result xs.

(** [s.forEach((x) => result.add(x))] over a set. *)
Definition addEachOf `{Countable A} (s : gset A) (result : gset A) : gset A :=
  set_fold (λ x result, {[x]} ∪ result) result s.

(** [Object.keys(table)].  The order of the keys plays no role: the
    constructor gives every key a cache entry of its own. *)
Definition Object_keys {V} (table : gmap Role V) : list Role :=
  (map_to_list table).*1.

(** The callback of [inheritedRoles.forEach] inside
    [computeRoleHierarchy]: [state] is the pair of [result] and [visited]
    as the previous iterations left them, [call] is the recursive call. *)
Definition visitInherited
    (call : Role → gset Role → option (gset Role * gset Role))
    (state : option (gset Role * gset Role)) (inheritedRole : Role)
  : option (gset Role * gset Role) :=
  '(result, visited) ← state;
  let result := {[inheritedRole]} ∪ result in
  '(inheritedHierarchy, visited) ← call inheritedRole visited;
  Some (addEachOf inheritedHierarchy result, visited).

(** [computeRoleHierarchy(role, visited)].  The first component of the
    answer is the returned set, the second is [visited] as the call
    leaves it.  The recursion of the source is not structural, so the
    embedding carries [depth], a bound on how deep calls may nest; [None]
    means the bound was hit.  [computeRoleHierarchy_is_Some] and
    [computeRoleHierarchy_depth_mono] below show that the bound the
    constructor uses is never hit and that a larger one gives the same
    answer. *)
Fixpoint computeRoleHierarchy (depth : nat) (role : Role) (visited : gset Role)
  : option (gset Role * gset Role) :=
  match depth with
  | O => None
  | S depth' =>
      if decide (role ∈ visited) then Some (∅, visited)
      else
        let visited := {[role]} ∪ visited in
        let inheritedRoles := default [] (RoleHierarchy !! role) in
        foldl (visitInherited (computeRoleHierarchy depth'))
          (Some (∅, visited)) inheritedRoles
  end.

(** [computeRolePermissions(role, visited)], reading the hierarchy
    cache of the object under construction. *)
Definition computeRolePermissions
    (cachedRoleHierarchy : gmap Role (gset Role))
    (role : Role) (visited : gset Role) : gset Permission * gset Role :=
  if decide (role ∈ visited) then (∅, visited)
  else
    let visited := {[role]} ∪ visited in
    let result :=
      match RoleBasedPermissions !! role with
      | Some granted => addEach granted ∅
      | None => ∅
      end in
    let result :=
      match cachedRoleHierarchy !! role with
      | Some hierarchySet =>
          set_fold
            (λ inheritedRole result,
               match RoleBasedPermissions !! inheritedRole with
               | Some granted => addEach granted result
               | None => result
               end)
            result hierarchySet
      | None => result
      end in
    (result, visited).

(** Nesting bound under which the constructor runs the traversal: one
    more than the number of keys of the hierarchy table. *)
Definition nestingBound : nat := S (size RoleHierarchy).

(** The first [forEach] of the constructor. *)
Definition cacheRoleHierarchy (keys : list Role)
  : option (gmap Role (gset Role)) :=
  foldl
    (λ cache role,
       cache ← cache;
       '(hierarchy, _) ← computeRoleHierarchy nestingBound role ∅;
       Some (<[role := hierarchy]> cache))
    (Some ∅) keys.

(** The second [forEach] of the constructor. *)
Definition cacheRolePermissions
    (cachedRoleHierarchy : gmap Role (gset Role)) (keys : list Role)
  : gmap Role (gset Permission) :=
  foldl
    (λ cache role,
       <[role := (computeRolePermissions cachedRoleHierarchy role ∅).1]> cache)
    ∅ keys.

Definition constructor (context : PermissionContext) : option PermissionManager :=
  cachedRoleHierarchy ← cacheRoleHierarchy (Object_keys RoleHierarchy);
  Some {|
    context := context;
    cachedRoleHierarchy := cachedRoleHierarchy;
    cachedRolePermissions :=
      cacheRolePermissions cachedRoleHierarchy (Object_keys RoleBasedPermissions);
  |}.

(** [array.some(f)] and [array.every(f)] are [existsb f] and
    [forallb f]; [set?.has(x)] on a missing set is falsy. *)
Definition optHas `{Countable A} (s : option (gset A)) (x : A) : bool :=
  match s with
  | Some s => bool_decide (x ∈ s)
  | None => false
  end.

Definition hasPermissionThroughRole (this : PermissionManager)
    (roles : list Role) (permission : Permission) : bool :=
  existsb (λ role, optHas (cachedRolePermissions this !! role) permission) roles.

Definition hasPermission (this : PermissionManager)
    (requiredPermission : Permission) : bool :=
  if bool_decide (requiredPermission ∈ permissions (context this)) then true
  else hasPermissionThroughRole this (roles (context this)) requiredPermission.

Definition hasPermissions (this : PermissionManager)
    (requiredPermissions : list Permission) : bool :=
  forallb (λ permission, hasPermission this permission) requiredPermissions.

Definition hasAnyPermission (this : PermissionManager)
    (requiredPermissions : list Permission) : bool :=
  existsb (λ permission, hasPermission this permission) requiredPermissions.

Definition hasRole (this : PermissionManager) (requiredRole : Role) : bool :=
  existsb
    (λ role,
       let hierarchySet := cachedRoleHierarchy this !! role in
       optHas hierarchySet requiredRole || bool_decide (role = requiredRole))
    (roles (context this)).

(** [roles.reduce(f, roles[0])]: the accumulator starts as [roles[0]],
    which is [undefined] on an empty array, and [f] then runs on every
    element from index 0 on. *)
Definition getMaxRole (this : PermissionManager) : option Role :=
  foldl
    (λ maxRole currentRole,
       if optHas (maxRole ≫= λ m, cachedRoleHierarchy this !! m) currentRole
       then maxRole
       else Some currentRole)
    (head (roles (context this)))
    (roles (context this)).

(** ** Vocabulary of the properties *)

(** An inheritance edge of the hierarchy table: [b] is listed under
    [a]. *)
Definition inherits (a b : Role) : Prop :=
  b ∈ default [] (RoleHierarchy !! a).

(** [b] is reachable from [a] by one or more inheritance edges. *)
Definition reachable : relation Role := tc inherits.

(** No role reaches itself. *)
Definition acyclic : Prop := ∀ r, ¬ reachable r r.

(** What one call guarantees about its answer [(res, V')] when entered
    with [visited = V]: [visited] only grows and now holds [role]; every
    role returned has been visited and is reachable from [role]; and
    every role this call visited for the first time has all its direct
    parents in the answer. *)
Definition callGuarantee
    (call : Role → gset Role → option (gset Role * gset Role)) : Prop :=
  ∀ role V res V',
    call role V = Some (res, V') →
    V ⊆ V' ∧ role ∈ V' ∧ res ⊆ V' ∧
    (∀ x, x ∈ res → reachable role x) ∧
    (∀ u, u ∈ V' → u ∉ V → ∀ w, inherits u w → w ∈ res).

(** The permissions granted to a role directly. *)
Definition directGrants (r : Role) : list Permission :=
  default [] (RoleBasedPermissions !! r).

(** The fold [getMaxRole] is specified by: the candidate gives way to
    the next role exactly when the candidate's cached closure does not
    contain it. *)
Definition seniorityFold (closures : gmap Role (gset Role))
    (first : Role) (examined : list Role) : Role :=
  foldl
    (λ candidate next,
       if optHas (closures !! candidate) next then candidate else next)
    first examined.

(** The context with one more role, put at index [i] of the role list
    (at the end when [i] is past it), and the context with one more
    directly granted permission. *)
Definition withRole (ctx : PermissionContext) (i : nat) (r : Role)
  : PermissionContext :=
  {| roles := take i (roles ctx) ++ r :: drop i (roles ctx);
     permissions := permissions ctx |}.

Definition withPermission (ctx : PermissionContext) (i : nat) (p : Permission)
  : PermissionContext :=
  {| roles := roles ctx;
     permissions := take i (permissions ctx) ++ p :: drop i (permissions ctx) |}.

End PermissionManager.


(** ** The shipped configuration, flattened by hand

    The closures one expects the constructor to cache for the tables of
    [config.ts]; [Shipped.constructor_shipped] below checks that it does. *)

Module Shipped.
Import Config.

Definition hierarchyClosures : gmap Role (gset Role) :=
  list_to_map
    [ (SUPER_ADMIN, list_to_set [ADMIN; MANAGER; PREMIUM_USER; USER]);
      (ADMIN, list_to_set [MANAGER; PREMIUM_USER; USER]);
      (MANAGER, list_to_set [PREMIUM_USER; USER]);
      (PREMIUM_USER, list_to_set [USER]);
      (USER, ∅) ].

Definition userGrants : list Permission := [PRODUCT_READ].
Definition premiumGrants : list Permission := PRODUCT_REVIEW :: userGrants.
Definition managerGrants : list Permission :=
  [PRODUCT_CREATE; PRODUCT_UPDATE; USER_CREATE; USER_UPDATE; USER_READ]
  ++ premiumGrants.
Definition adminGrants : list Permission :=
  [PRODUCT_DELETE; USER_DELETE] ++ managerGrants.

Definition permissionClosures : gmap Role (gset Permission) :=
  list_to_map
    [ (SUPER_ADMIN, list_to_set adminGrants);
      (ADMIN, list_to_set adminGrants);
      (MANAGER, list_to_set managerGrants);
      (PREMIUM_USER, list_to_set premiumGrants);
      (USER, list_to_set userGrants) ].

Definition manager (ctx : @PermissionContext Role Permission) :=
  {| context := ctx;
     cachedRoleHierarchy := hierarchyClosures;
     cachedRolePermissions := permissionClosures |}.

(** The constructor of the source, on the shipped tables. *)
Definition construct (ctx : @PermissionContext Role Permission) :=
  constructor RoleHierarchy RoleBasedPermissions ctx.

(** A principal with the given roles and direct permissions. *)
Definition principal (rs : list Role) (ps : list Permission)
  : @PermissionContext Role Permission :=
  {| roles := rs; permissions := ps |}.

End Shipped.

(** ** Two malformed or unusual hierarchy tables *)

Module Tables.
Import Config.

(** A cycle: ADMIN and MANAGER inherit from each other. *)
Definition cyclic : gmap Role (list Role) :=
  list_to_map [ (ADMIN, [MANAGER]); (MANAGER, [ADMIN]) ].

(** A diamond: SUPER_ADMIN inherits from ADMIN and from MANAGER, which
    both inherit from PREMIUM_USER. *)
Definition diamond : gmap Role (list Role) :=
  list_to_map
    [ (SUPER_ADMIN, [ADMIN; MANAGER]);
      (ADMIN, [PREMIUM_USER]);
      (MANAGER, [PREMIUM_USER]);
      (PREMIUM_USER, [USER]) ].

End Tables.

(** ** Vocabulary of the traversal on a given [visited] set *)

Section TraversalVocabulary.
Context `{Countable Role}.
Variable RoleHierarchy : gmap Role (list Role).

(** An inheritance edge that enters a role outside [V]. *)
Definition entersUnvisited (V : gset Role) (a b : Role) : Prop :=
  inherits RoleHierarchy a b ∧ b ∉ V.

(** [u] is reached from [role] along a path of roles none of which is in
    [V]; the path may be empty, so [role] itself counts when it is not in
    [V]. *)
Definition reachedAfresh (V : gset Role) (role u : Role) : Prop :=
  (role ∉ V) ∧ rtc (entersUnvisited V) role u.

(** Where the answer [(res, V')] of a call entered with [visited = V]
    comes from: every role that joined [visited] was reached afresh, and
    every role returned is a direct parent of a role reached afresh. *)
Definition callProvenance
    (call : Role → gset Role → option (gset Role * gset Role)) : Prop :=
  ∀ role V res V',
    call role V = Some (res, V') →
    (∀ u, u ∈ V' → u ∉ V → reachedAfresh V role u) ∧
    (∀ w, w ∈ res → ∃ u, reachedAfresh V role u ∧ inherits RoleHierarchy u w).

End TraversalVocabulary.

(** ** Further concrete configurations *)

Module Scenarios.
Import Config.

(** A permission table with a single key. *)
Definition sparsePermissions : gmap Role (list Permission) :=
  list_to_map [ (USER, [PRODUCT_READ]) ].

(** What the constructor caches for the shipped hierarchy and
    [sparsePermissions]. *)
Definition sparseManager (ctx : @PermissionContext Role Permission) :=
  {| context := ctx;
     cachedRoleHierarchy := Shipped.hierarchyClosures;
     cachedRolePermissions :=
       list_to_map [ (USER, list_to_set [PRODUCT_READ]) ] |}.

(** What the constructor caches for [Tables.cyclic] and an empty
    permission table. *)
Definition cyclicManager (ctx : @PermissionContext Role Permission) :=
  {| context := ctx;
     cachedRoleHierarchy :=
       list_to_map
         [ (ADMIN, list_to_set [MANAGER; ADMIN]);
           (MANAGER, list_to_set [ADMIN; MANAGER]) ];
     cachedRolePermissions := (∅ : gmap Role (gset Permission)) |}.

(** Principals used below. *)
Definition userOnly := Shipped.principal [USER] [].
Definition adminOnly := Shipped.principal [ADMIN] [].
Definition mixedRoles := Shipped.principal [USER; ADMIN; MANAGER] [].
Definition adminThenSuper := Shipped.principal [ADMIN; SUPER_ADMIN] [].
Definition userAdmin := Shipped.principal [USER; ADMIN] [PRODUCT_REVIEW].
Definition adminUserAdmin :=
  Shipped.principal [ADMIN; USER; ADMIN] [PRODUCT_REVIEW; PRODUCT_REVIEW].

End Scenarios.

(** * Properties *)

(** ** The shipped configuration *)

Module ShippedFacts.
Import Config Shipped.

Lemma constructor_shipped ctx : construct ctx = Some (manager ctx).
Proof. vm_compute. reflexivity. Qed.

(** The scenarios of the shipped configuration. *)
Example user_scenario :
  let pm := manager (principal [USER] []) in
  hasPermission pm PRODUCT_READ = true ∧
  hasPermission pm PRODUCT_CREATE = false ∧
  hasRole pm SUPER_ADMIN = false.
Proof. vm_compute. done. Qed.

Example manager_scenario :
  let pm := manager (principal [MANAGER] []) in
  hasPermission pm PRODUCT_READ = true ∧
  hasRole pm USER = true ∧
  getMaxRole pm = Some MANAGER.
Proof. vm_compute. done. Qed.

Example admin_scenario :
  let pm := manager (principal [ADMIN] []) in
  hasPermissions pm [PRODUCT_DELETE; USER_DELETE] = true ∧
  hasAnyPermission pm [PRODUCT_CREATE] = true.
Proof. vm_compute. done. Qed.

(** The shipped hierarchy is one chain, and on it the most senior role
    held wins wherever it stands in the list. *)
Example getMaxRole_chain :
  getMaxRole (manager (principal [USER; ADMIN; MANAGER] [])) = Some ADMIN ∧
  getMaxRole (manager (principal [ADMIN; USER; MANAGER] [])) = Some ADMIN ∧
  getMaxRole (manager (principal [MANAGER; USER; ADMIN] [])) = Some ADMIN ∧
  getMaxRole (manager (principal [USER; MANAGER] [])) = Some MANAGER.
Proof. vm_compute. done. Qed.

(** On the cyclic table the traversal stops at the repeated role; the
    closure of ADMIN then holds ADMIN itself. *)
Example cyclic_closure :
  computeRoleHierarchy Tables.cyclic (nestingBound Tables.cyclic) ADMIN ∅ =
  Some (list_to_set [MANAGER; ADMIN], list_to_set [ADMIN; MANAGER]).
Proof. vm_compute. reflexivity. Qed.

(** On the diamond the nested call for MANAGER finds PREMIUM_USER already
    visited and returns without USER, yet the outer call has USER from
    the earlier branch. *)
Example diamond_nested_call :
  computeRoleHierarchy Tables.diamond 5 MANAGER
    (list_to_set [SUPER_ADMIN; ADMIN; PREMIUM_USER; USER]) =
  Some (list_to_set [PREMIUM_USER],
        list_to_set [SUPER_ADMIN; ADMIN; PREMIUM_USER; USER; MANAGER]).
Proof. vm_compute. reflexivity. Qed.

Example diamond_closure :
  fst <$> computeRoleHierarchy Tables.diamond (nestingBound Tables.diamond)
            SUPER_ADMIN ∅ =
  Some (list_to_set [ADMIN; MANAGER; PREMIUM_USER; USER]).
Proof. vm_compute. reflexivity. Qed.

(** Every edge of the shipped hierarchy goes down the enumeration. *)
Lemma inherits_shipped_rank a b :
  inherits RoleHierarchy a b → Role_to_nat a < Role_to_nat b.
Proof.
  unfold inherits. intros Hin.
  destruct a; vm_compute in Hin; inversion Hin as [|? ? ? Htl]; subst;
    simpl; try lia; inversion Htl.
Qed.

Lemma shipped_acyclic : acyclic RoleHierarchy.
Proof.
  assert (Hrank : ∀ a b, reachable RoleHierarchy a b →
                         Role_to_nat a < Role_to_nat b).
  { intros a b Hreach.
    induction Hreach as [a b Hedge|a b c Hedge _ IH].
    - by apply inherits_shipped_rank.
    - apply inherits_shipped_rank in Hedge. lia. }
  intros r Hr%Hrank. lia.
Qed.

End ShippedFacts.

(** ** Adding the elements of an array or of a set to a set *)

Lemma addEach_elem `{Countable A} (xs : list A) (result : gset A) (x : A) :
  x ∈ addEach xs result ↔ x ∈ xs ∨ x ∈ result.
Proof.
  unfold addEach. revert result.
  induction xs as [|y ys IH]; intros result; simpl.
  - set_solver.
  - rewrite IH. set_solver.
Qed.

Lemma addEachOf_union `{Countable A} (s result : gset A) :
  addEachOf s result = s ∪ result.
Proof.
  unfold addEachOf.
  apply (set_fold_ind_L (λ acc X, acc = X ∪ result)).
  - set_solver.
  - intros x X acc _ ->. set_solver.
Qed.

Lemma Object_keys_elem `{Countable K} {V} (table : gmap K V) (k : K) :
  k ∈ Object_keys table ↔ is_Some (table !! k).
Proof.
  unfold Object_keys. rewrite list_elem_of_fmap. split.
  - intros ([k' v] & -> & Hin). apply elem_of_map_to_list in Hin. eauto.
  - intros [v Hv]. exists (k, v). split; [done|]. by apply elem_of_map_to_list.
Qed.

(** ** The traversal of [computeRoleHierarchy] *)

Section Traversal.
Context `{Countable Role}.
Variable RoleHierarchy : gmap Role (list Role).

#[local] Abbreviation inherits := (inherits RoleHierarchy).
#[local] Abbreviation reachable := (reachable RoleHierarchy).
#[local] Abbreviation computeRoleHierarchy := (computeRoleHierarchy RoleHierarchy).
#[local] Abbreviation callGuarantee := (callGuarantee RoleHierarchy).

Lemma foldl_visitInherited_None call l :
  foldl (visitInherited (Role:=Role) call) None l = None.
Proof. by induction l. Qed.

Lemma visitInherited_fold_inv call role Vs :
  callGuarantee call →
  ∀ l res0 V0 res V',
    (∀ c, c ∈ l → inherits role c) →
    foldl (visitInherited call) (Some (res0, V0)) l = Some (res, V') →
    Vs ⊆ V0 → res0 ⊆ V0 →
    (∀ x, x ∈ res0 → reachable role x) →
    (∀ u, u ∈ V0 → u ∉ Vs → ∀ w, inherits u w → w ∈ res0) →
    V0 ⊆ V' ∧ (∀ c, c ∈ l → c ∈ res) ∧ res0 ⊆ res ∧ res ⊆ V' ∧
    (∀ x, x ∈ res → reachable role x) ∧
    (∀ u, u ∈ V' → u ∉ Vs → ∀ w, inherits u w → w ∈ res).
Proof.
  intros Hcall. induction l as [|c l IH]; intros res0 V0 res V' Hl Hfold HVs Hres Hreach Hsucc.
  - simpl in Hfold. simplify_eq. set_solver.
  - simpl in Hfold.
    destruct (call c V0) as [[resc Vc]|] eqn:Ecall; simpl in Hfold;
      [|by rewrite foldl_visitInherited_None in Hfold].
    rewrite addEachOf_union in Hfold.
    destruct (Hcall _ _ _ _ Ecall) as (HV & Hc & Hrc & Hreachc & Hsuccc).
    assert (Hedge : inherits role c) by (apply Hl; left).
    apply IH in Hfold as (HV' & Hin & Hsub & Hres' & Hreach' & Hsucc').
    + split_and!; [set_solver| |set_solver|done|done|done].
      intros c' [->|Hc']%elem_of_cons; [set_solver|by apply Hin].
    + intros c' Hc'. apply Hl. by right.
    + set_solver.
    + set_solver.
    + intros x [Hx|[->%elem_of_singleton|Hx]%elem_of_union]%elem_of_union.
      * eapply tc_l; [exact Hedge|by apply Hreachc].
      * by apply tc_once.
      * by apply Hreach.
    + intros u Hu HuVs w Hw.
      destruct (decide (u ∈ V0)) as [Hu0|Hu0].
      * specialize (Hsucc u Hu0 HuVs w Hw). set_solver.
      * specialize (Hsuccc u Hu Hu0 w Hw). set_solver.
Qed.

Lemma computeRoleHierarchy_guarantee depth :
  callGuarantee (computeRoleHierarchy depth).
Proof.
  induction depth as [|depth IH]; intros role V res V' Hcall; [done|].
  simpl in Hcall. destruct (decide (role ∈ V)) as [Hin|Hnin].
  - simplify_eq. set_solver.
  - destruct (visitInherited_fold_inv _ role ({[role]} ∪ V) IH
                _ _ _ _ _ (λ c Hc, Hc) Hcall)
      as (HV & Hl & _ & Hres & Hreach & Hsucc); [set_solver..|].
    split_and!; [set_solver|set_solver|done|done|].
    intros u Hu HuV w Hw.
    destruct (decide (u = role)) as [->|Hne]; [by apply Hl|].
    apply (Hsucc u); [done|set_solver|done].
Qed.

(** Started on an empty [visited], the call returns exactly the roles
    reachable from [role], whether or not the table has cycles. *)
Lemma computeRoleHierarchy_reachable depth role res V' :
  computeRoleHierarchy depth role ∅ = Some (res, V') →
  ∀ x, x ∈ res ↔ reachable role x.
Proof.
  intros Hcall.
  destruct (computeRoleHierarchy_guarantee _ _ _ _ _ Hcall)
    as (_ & Hrole & Hres & Hsound & Hsucc).
  intros x. split; [apply Hsound|].
  assert (Hstep : ∀ a w, a = role ∨ a ∈ res → inherits a w → w ∈ res).
  { intros a w Ha Hw. apply (Hsucc a); [|set_solver|done].
    destruct Ha as [->|Ha]; [done|by apply Hres]. }
  assert (Hgen : ∀ a w, reachable a w → a = role ∨ a ∈ res → w ∈ res).
  { intros a w Hreach. induction Hreach as [a w Hedge|a b w Hedge _ IH];
      intros Ha; [by eapply Hstep|].
    apply IH. right. by eapply Hstep. }
  intros Hx. apply (Hgen role x Hx). by left.
Qed.

(** *** Termination *)

Lemma visitInherited_fold_is_Some depth :
  (∀ role V, size (dom RoleHierarchy ∖ V) < depth →
             is_Some (computeRoleHierarchy depth role V)) →
  ∀ l res0 V0,
    size (dom RoleHierarchy ∖ V0) < depth →
    is_Some (foldl (visitInherited (computeRoleHierarchy depth))
               (Some (res0, V0)) l).
Proof.
  intros IH. induction l as [|c l IHl]; intros res0 V0 Hsize; simpl; [by eexists|].
  destruct (IH c V0 Hsize) as [[resc Vc] Ecall]. rewrite Ecall. simpl.
  apply IHl.
  destruct (computeRoleHierarchy_guarantee _ _ _ _ _ Ecall) as (HV & _).
  assert (dom RoleHierarchy ∖ Vc ⊆ dom RoleHierarchy ∖ V0) as Hsub
    by set_solver.
  apply subseteq_size in Hsub. lia.
Qed.

(** A call whose nesting bound exceeds the number of table keys not yet
    visited returns. *)
Lemma computeRoleHierarchy_is_Some depth role V :
  size (dom RoleHierarchy ∖ V) < depth →
  is_Some (computeRoleHierarchy depth role V).
Proof.
  revert role V. induction depth as [|depth IH]; intros role V Hsize; [lia|].
  simpl. destruct (decide (role ∈ V)) as [Hin|Hnin]; [by eexists|].
  destruct (RoleHierarchy !! role) as [l|] eqn:Elook; simpl; [|by eexists].
  apply visitInherited_fold_is_Some; [done|].
  assert (dom RoleHierarchy ∖ ({[role]} ∪ V) ⊂ dom RoleHierarchy ∖ V) as Hsub.
  { apply elem_of_dom_2 in Elook. set_solver. }
  apply subset_size in Hsub. lia.
Qed.

(** *** A larger nesting bound changes nothing *)

Lemma visitInherited_fold_mono
    (call call' : Role → gset Role → option (gset Role * gset Role)) :
  (∀ c V r, call c V = Some r → call' c V = Some r) →
  ∀ l state r,
    foldl (visitInherited call) state l = Some r →
    foldl (visitInherited call') state l = Some r.
Proof.
  intros Hcall. induction l as [|c l IH]; intros state r Hfold; [done|].
  simpl in *. destruct state as [[res0 V0]|]; simpl in *;
    [|by rewrite foldl_visitInherited_None in Hfold].
  destruct (call c V0) as [[resc Vc]|] eqn:Ecall; simpl in *;
    [|by rewrite foldl_visitInherited_None in Hfold].
  rewrite (Hcall _ _ _ Ecall). simpl. by apply IH.
Qed.

Lemma computeRoleHierarchy_depth_mono depth depth' role V r :
  depth ≤ depth' →
  computeRoleHierarchy depth role V = Some r →
  computeRoleHierarchy depth' role V = Some r.
Proof.
  revert depth' role V r.
  induction depth as [|depth IH]; intros depth' role V r Hle Hcall; [done|].
  destruct depth' as [|depth']; [lia|].
  simpl in *. destruct (decide (role ∈ V)); [done|].
  eapply visitInherited_fold_mono; [|exact Hcall].
  intros c V0 r0. apply IH. lia.
Qed.

End Traversal.

(** ** What the constructor caches *)

Section Construction.
Context `{Countable Role, Countable Permission}.
Variable RoleHierarchy : gmap Role (list Role).
Variable RoleBasedPermissions : gmap Role (list Permission).

#[local] Abbreviation reachable := (reachable RoleHierarchy).
#[local] Abbreviation computeRoleHierarchy := (computeRoleHierarchy RoleHierarchy).
#[local] Abbreviation nestingBound := (nestingBound RoleHierarchy).
#[local] Abbreviation cacheRoleHierarchy := (cacheRoleHierarchy RoleHierarchy).
#[local] Abbreviation computeRolePermissions := (computeRolePermissions RoleBasedPermissions).
#[local] Abbreviation cacheRolePermissions := (cacheRolePermissions RoleBasedPermissions).
#[local] Abbreviation directGrants := (directGrants RoleBasedPermissions).
#[local] Abbreviation constructor := (constructor RoleHierarchy RoleBasedPermissions).

Lemma computeRoleHierarchy_nestingBound role :
  is_Some (computeRoleHierarchy nestingBound role ∅).
Proof.
  apply computeRoleHierarchy_is_Some. unfold nestingBound.
  rewrite difference_empty_L, size_dom. lia.
Qed.

Lemma cacheRoleHierarchy_lookup keys cache r :
  cacheRoleHierarchy keys = Some cache →
  cache !! r =
    if decide (r ∈ keys) then fst <$> computeRoleHierarchy nestingBound r ∅
    else None.
Proof.
  unfold cacheRoleHierarchy.
  match goal with |- context [foldl ?f _ _] => set (step := f) end.
  assert (Hnone : ∀ l, foldl step None l = None) by (by induction l).
  assert (Hgen : ∀ keys cache0 cache,
    foldl step (Some cache0) keys = Some cache →
    cache !! r =
      if decide (r ∈ keys) then fst <$> computeRoleHierarchy nestingBound r ∅
      else cache0 !! r).
  { clear keys cache.
    induction keys as [|k keys IH]; intros cache0 cache Hfold;
      cbn [foldl] in Hfold.
    - rewrite decide_False by set_solver. by simplify_eq.
    - destruct (computeRoleHierarchy nestingBound k ∅) as [[h V]|] eqn:Ecall.
      2: { replace (step (Some cache0) k) with (@None (gmap Role (gset Role)))
             in Hfold by (unfold step; cbn [mbind option_bind]; by rewrite Ecall).
           by rewrite Hnone in Hfold. }
      replace (step (Some cache0) k) with (Some (<[k:=h]> cache0))
        in Hfold by (unfold step; cbn [mbind option_bind]; by rewrite Ecall).
      rewrite (IH _ _ Hfold).
      destruct (decide (r ∈ keys)) as [Hin|Hnin].
      + by rewrite decide_True by set_solver.
      + destruct (decide (r = k)) as [->|Hne].
        * rewrite decide_True by set_solver.
          by rewrite lookup_insert_eq, Ecall.
        * rewrite decide_False by set_solver. by rewrite lookup_insert_ne. }
  intros Hfold. rewrite (Hgen _ _ _ Hfold). by rewrite lookup_empty.
Qed.

Lemma cacheRoleHierarchy_is_Some keys : is_Some (cacheRoleHierarchy keys).
Proof.
  unfold cacheRoleHierarchy.
  generalize (∅ : gmap Role (gset Role)).
  induction keys as [|k keys IH]; intros cache0; cbn [foldl]; [by eexists|].
  destruct (computeRoleHierarchy_nestingBound k) as [[h V] Ecall].
  cbn [mbind option_bind]. rewrite Ecall. apply IH.
Qed.

Lemma cacheRolePermissions_lookup hierarchy keys r :
  cacheRolePermissions hierarchy keys !! r =
    if decide (r ∈ keys) then Some (computeRolePermissions hierarchy r ∅).1
    else None.
Proof.
  unfold cacheRolePermissions.
  match goal with |- context [foldl ?f _ _] => set (step := f) end.
  assert (Hgen : ∀ keys cache0,
    foldl step cache0 keys !! r =
      if decide (r ∈ keys) then Some (computeRolePermissions hierarchy r ∅).1
      else cache0 !! r).
  { clear keys.
    induction keys as [|k keys IH]; intros cache0; cbn [foldl].
    - by rewrite decide_False by set_solver.
    - rewrite IH. unfold step at 1.
      destruct (decide (r ∈ keys)) as [Hin|Hnin].
      + by rewrite decide_True by set_solver.
      + destruct (decide (r = k)) as [->|Hne].
        * rewrite decide_True by set_solver. by rewrite lookup_insert_eq.
        * rewrite decide_False by set_solver. by rewrite lookup_insert_ne. }
  rewrite Hgen. by rewrite lookup_empty.
Qed.

Lemma inheritedGrants_fold (result : gset Permission) (S : gset Role) p :
  p ∈ set_fold
        (λ inheritedRole result,
           match RoleBasedPermissions !! inheritedRole with
           | Some granted => addEach granted result
           | None => result
           end)
        result S ↔
  p ∈ result ∨ ∃ a, a ∈ S ∧ p ∈ directGrants a.
Proof.
  revert p. unfold directGrants.
  apply (set_fold_ind_L (λ acc X, ∀ p,
    p ∈ acc ↔ p ∈ result ∨
              ∃ a, a ∈ X ∧ p ∈ default [] (RoleBasedPermissions !! a))).
  - set_solver.
  - intros a X acc Ha IH p.
    assert (p ∈ match RoleBasedPermissions !! a with
                | Some granted => addEach granted acc
                | None => acc
                end ↔ p ∈ default [] (RoleBasedPermissions !! a) ∨ p ∈ acc)
      as ->.
    { destruct (RoleBasedPermissions !! a); simpl.
      - apply addEach_elem.
      - set_solver. }
    rewrite IH. set_solver.
Qed.

(** The set [computeRolePermissions] returns on a fresh [visited]. *)
Lemma computeRolePermissions_elem hierarchy role p :
  p ∈ (computeRolePermissions hierarchy role ∅).1 ↔
  p ∈ directGrants role ∨
  ∃ a S, hierarchy !! role = Some S ∧ a ∈ S ∧ p ∈ directGrants a.
Proof.
  unfold computeRolePermissions.
  rewrite decide_False by set_solver. cbn [fst].
  assert (Hown : ∀ q,
    q ∈ match RoleBasedPermissions !! role with
        | Some granted => addEach granted ∅
        | None => ∅
        end ↔ q ∈ directGrants role).
  { intros q. unfold directGrants.
    destruct (RoleBasedPermissions !! role); simpl.
    - rewrite addEach_elem. set_solver.
    - set_solver. }
  destruct (hierarchy !! role) as [S|].
  - rewrite inheritedGrants_fold, Hown. naive_solver.
  - rewrite Hown. naive_solver.
Qed.

(** *** The constructed object *)

Lemma constructor_is_Some ctx : is_Some (constructor ctx).
Proof.
  unfold constructor.
  destruct (cacheRoleHierarchy_is_Some (Object_keys RoleHierarchy)) as [c ->].
  by eexists.
Qed.

Lemma constructor_inv ctx pm :
  constructor ctx = Some pm →
  context pm = ctx ∧
  cacheRoleHierarchy (Object_keys RoleHierarchy) = Some (cachedRoleHierarchy pm) ∧
  cachedRolePermissions pm =
    cacheRolePermissions (cachedRoleHierarchy pm)
      (Object_keys RoleBasedPermissions).
Proof.
  unfold constructor. intros Hc.
  destruct (cacheRoleHierarchy (Object_keys RoleHierarchy)) as [c|];
    simpl in Hc; [|done].
  by simplify_eq.
Qed.

(** Every key of the hierarchy table gets a cached closure, no other
    role does, and the closure cached for [r] is the set of roles
    reachable from [r]. *)
Lemma cachedRoleHierarchy_keys ctx pm r :
  constructor ctx = Some pm →
  is_Some (cachedRoleHierarchy pm !! r) ↔ is_Some (RoleHierarchy !! r).
Proof.
  intros (_ & Hh & _)%constructor_inv.
  rewrite (cacheRoleHierarchy_lookup _ _ r Hh), <-Object_keys_elem.
  destruct (decide (r ∈ Object_keys RoleHierarchy)) as [Hin|Hnin].
  - destruct (computeRoleHierarchy_nestingBound r) as [x ->]. simpl.
    split; eauto.
  - split; [by intros [??]|done].
Qed.

Lemma cachedRoleHierarchy_reachable ctx pm r S :
  constructor ctx = Some pm →
  cachedRoleHierarchy pm !! r = Some S →
  ∀ x, x ∈ S ↔ reachable r x.
Proof.
  intros (_ & Hh & _)%constructor_inv.
  rewrite (cacheRoleHierarchy_lookup _ _ r Hh).
  destruct (decide (r ∈ Object_keys RoleHierarchy)); [|done].
  destruct (computeRoleHierarchy nestingBound r ∅) as [[res V]|] eqn:Ecall;
    [|done].
  simpl. intros [= <-].
  by eapply computeRoleHierarchy_reachable.
Qed.

Lemma cachedRolePermissions_keys ctx pm r :
  constructor ctx = Some pm →
  is_Some (cachedRolePermissions pm !! r) ↔ is_Some (RoleBasedPermissions !! r).
Proof.
  intros (_ & _ & ->)%constructor_inv.
  rewrite cacheRolePermissions_lookup, <-Object_keys_elem.
  destruct (decide (r ∈ Object_keys RoleBasedPermissions)).
  - split; eauto.
  - split; [by intros [??]|done].
Qed.

Lemma cachedRolePermissions_elem ctx pm r P :
  constructor ctx = Some pm →
  cachedRolePermissions pm !! r = Some P →
  ∀ p, p ∈ P ↔
       p ∈ directGrants r ∨
       ∃ a S, cachedRoleHierarchy pm !! r = Some S ∧ a ∈ S ∧
              p ∈ directGrants a.
Proof.
  intros (_ & _ & ->)%constructor_inv.
  rewrite cacheRolePermissions_lookup.
  destruct (decide (r ∈ Object_keys RoleBasedPermissions)); [|done].
  intros [= <-] p. apply computeRolePermissions_elem.
Qed.

End Construction.

(** ** The query methods *)

Section Queries.
Context `{Countable Role, Countable Permission}.
Implicit Types this : @PermissionManager Role _ _ Permission _ _.

Lemma optHas_true `{Countable A} (s : option (gset A)) (x : A) :
  optHas s x = true ↔ ∃ s', s = Some s' ∧ x ∈ s'.
Proof.
  destruct s as [s|]; simpl.
  - rewrite bool_decide_eq_true. naive_solver.
  - naive_solver.
Qed.

Lemma some_true {A} (f : A → bool) (l : list A) :
  existsb f l = true ↔ ∃ x, x ∈ l ∧ f x = true.
Proof. rewrite existsb_exists. by setoid_rewrite list_elem_of_In. Qed.

Lemma every_true {A} (f : A → bool) (l : list A) :
  forallb f l = true ↔ ∀ x, x ∈ l → f x = true.
Proof. rewrite forallb_forall. by setoid_rewrite list_elem_of_In. Qed.

Lemma hasPermissionThroughRole_true this rs p :
  hasPermissionThroughRole this rs p = true ↔
  ∃ role P, role ∈ rs ∧ cachedRolePermissions this !! role = Some P ∧ p ∈ P.
Proof.
  unfold hasPermissionThroughRole. rewrite some_true.
  setoid_rewrite optHas_true. naive_solver.
Qed.

Lemma hasPermission_true this p :
  hasPermission this p = true ↔
  p ∈ permissions (context this) ∨
  ∃ role P, role ∈ roles (context this) ∧
            cachedRolePermissions this !! role = Some P ∧ p ∈ P.
Proof.
  unfold hasPermission. case_bool_decide as Hdirect.
  - naive_solver.
  - rewrite hasPermissionThroughRole_true. naive_solver.
Qed.

Lemma hasRole_true this r :
  hasRole this r = true ↔
  r ∈ roles (context this) ∨
  ∃ role S, role ∈ roles (context this) ∧
            cachedRoleHierarchy this !! role = Some S ∧ r ∈ S.
Proof.
  unfold hasRole. rewrite some_true. split.
  - intros (role & Hin & Htest). apply orb_true_iff in Htest as [Hhas|Heq].
    + apply optHas_true in Hhas as (S & HS & Hr). right. by exists role, S.
    + apply bool_decide_eq_true in Heq as ->. by left.
  - intros [Hin|(role & S & Hin & HS & Hr)].
    + exists r. split; [done|]. rewrite bool_decide_eq_true_2 by done.
      apply orb_true_r.
    + exists role. split; [done|]. apply orb_true_iff. left.
      apply optHas_true. eauto.
Qed.

(** The reducer of [getMaxRole] never yields [undefined] once the
    accumulator is a role, and then steps like [seniorityFold]. *)
Lemma getMaxRole_reduce this candidate examined :
  foldl
    (λ maxRole currentRole,
       if optHas (maxRole ≫= λ m, cachedRoleHierarchy this !! m) currentRole
       then maxRole
       else Some currentRole)
    (Some candidate) examined =
  Some (seniorityFold (cachedRoleHierarchy this) candidate examined).
Proof.
  unfold seniorityFold. revert candidate.
  induction examined as [|next examined IH]; intros candidate; simpl; [done|].
  destruct (optHas (cachedRoleHierarchy this !! candidate) next); apply IH.
Qed.

(** Examining the seed again as the first element changes nothing. *)
Lemma seniorityFold_seed (closures : gmap Role (gset Role)) first rest :
  seniorityFold closures first (first :: rest) =
  seniorityFold closures first rest.
Proof.
  unfold seniorityFold. simpl.
  by destruct (optHas (closures !! first) first).
Qed.

End Queries.

(** ** The properties of the engine, for every pair of tables *)

Section Engine.
Context `{Countable Role, Countable Permission}.
Variable RoleHierarchy : gmap Role (list Role).
Variable RoleBasedPermissions : gmap Role (list Permission).

#[local] Abbreviation reachable := (reachable RoleHierarchy).
#[local] Abbreviation acyclic := (acyclic RoleHierarchy).
#[local] Abbreviation computeRoleHierarchy := (computeRoleHierarchy RoleHierarchy).
#[local] Abbreviation nestingBound := (nestingBound RoleHierarchy).
#[local] Abbreviation computeRolePermissions :=
  (computeRolePermissions RoleBasedPermissions).
#[local] Abbreviation directGrants := (directGrants RoleBasedPermissions).
#[local] Abbreviation constructor := (constructor RoleHierarchy RoleBasedPermissions).
Implicit Types pm : @PermissionManager Role _ _ Permission _ _.
Implicit Types ctx : @PermissionContext Role Permission.

(** C1.  For an acyclic hierarchy table and a role [r] that is a key of
    it, the constructor caches a closure for [r]; that closure is exactly
    the set of roles reachable from [r] by one or more inheritance
    edges, and [r] is not in it. *)
Theorem cached_hierarchy_is_reachable_set ctx pm r :
  acyclic →
  is_Some (RoleHierarchy !! r) →
  constructor ctx = Some pm →
  ∃ S, cachedRoleHierarchy pm !! r = Some S ∧
       (∀ x, x ∈ S ↔ reachable r x) ∧
       r ∉ S.
Proof.
  intros Hacyclic Hkey Hc.
  apply (cachedRoleHierarchy_keys _ _ _ _ _ Hc) in Hkey as [S HS].
  exists S. split; [done|].
  assert (Hreach := cachedRoleHierarchy_reachable _ _ _ _ _ _ Hc HS).
  split; [done|].
  intros Hr%Hreach. by apply (Hacyclic r).
Qed.

(** C2.  The permission closure the constructor caches for a key [r] of
    the permission table holds exactly [r]'s direct grants and the
    direct grants of every role in [r]'s cached hierarchy closure.  It
    therefore contains [r]'s direct grants and the cached permission
    closure of every role in [r]'s hierarchy closure.  This holds for
    every configuration, the acyclic ones included. *)
Theorem cached_permissions_are_union ctx pm r :
  constructor ctx = Some pm →
  is_Some (RoleBasedPermissions !! r) →
  ∃ P, cachedRolePermissions pm !! r = Some P ∧
       (∀ p, p ∈ P ↔
             p ∈ directGrants r ∨
             ∃ a S, cachedRoleHierarchy pm !! r = Some S ∧ a ∈ S ∧
                    p ∈ directGrants a) ∧
       (∀ p, p ∈ directGrants r → p ∈ P) ∧
       (∀ a S Pa, cachedRoleHierarchy pm !! r = Some S → a ∈ S →
                  cachedRolePermissions pm !! a = Some Pa → Pa ⊆ P).
Proof.
  intros Hc Hkey.
  apply (cachedRolePermissions_keys _ _ _ _ _ Hc) in Hkey as [P HP].
  exists P. split; [done|].
  assert (HPelem := cachedRolePermissions_elem _ _ _ _ _ _ Hc HP).
  split; [done|]. split; [intros p Hp; apply HPelem; by left|].
  intros a S Pa HS Ha HPa p Hp.
  apply (cachedRolePermissions_elem _ _ _ _ _ _ Hc HPa) in Hp
    as [Hp|(b & Sa & HSa & Hb & Hp)]; apply HPelem; right.
  - by exists a, S.
  - exists b, S. split_and!; [done| |done].
    apply (cachedRoleHierarchy_reachable _ _ _ _ _ _ Hc HS).
    apply (cachedRoleHierarchy_reachable _ _ _ _ _ _ Hc HS) in Ha.
    apply (cachedRoleHierarchy_reachable _ _ _ _ _ _ Hc HSa) in Hb.
    by etrans.
Qed.

(** C3.  [hasPermission(p)] is true exactly when [p] is in the
    principal's direct permission list or some role of the principal has
    [p] in its cached permission closure.  The method is a total boolean
    function, so there is no error case; and a permission that no role
    of the configuration is granted and that the principal does not hold
    directly gives false. *)
Theorem hasPermission_iff ctx pm p :
  constructor ctx = Some pm →
  (hasPermission pm p = true ↔
     p ∈ permissions ctx ∨
     ∃ role P, role ∈ roles ctx ∧
               cachedRolePermissions pm !! role = Some P ∧ p ∈ P) ∧
  ((∀ role, p ∉ directGrants role) → p ∉ permissions ctx →
   hasPermission pm p = false).
Proof.
  intros Hc. destruct (constructor_inv _ _ _ _ Hc) as (Hctx & _).
  rewrite hasPermission_true, Hctx. split; [done|].
  intros Hnowhere Hdirect. apply not_true_is_false.
  rewrite hasPermission_true, Hctx.
  intros [?|(role & P & _ & HP & Hp)]; [done|].
  apply (cachedRolePermissions_elem _ _ _ _ _ _ Hc HP) in Hp
    as [Hp|(a & _ & _ & _ & Hp)]; by eapply Hnowhere.
Qed.

(** C4.  [hasRole(r)] is true exactly when the principal's role list
    contains [r] or some role of that list has [r] in its cached
    hierarchy closure; a role that is neither in the list nor reachable
    from a role of the list gives false. *)
Theorem hasRole_iff ctx pm r :
  constructor ctx = Some pm →
  (hasRole pm r = true ↔
     r ∈ roles ctx ∨
     ∃ role S, role ∈ roles ctx ∧
               cachedRoleHierarchy pm !! role = Some S ∧ r ∈ S) ∧
  (r ∉ roles ctx → (∀ role, role ∈ roles ctx → ¬ reachable role r) →
   hasRole pm r = false).
Proof.
  intros Hc. destruct (constructor_inv _ _ _ _ Hc) as (Hctx & _).
  rewrite hasRole_true, Hctx. split; [done|].
  intros Hdirect Hunreachable. apply not_true_is_false.
  rewrite hasRole_true, Hctx.
  intros [?|(role & S & Hin & HS & Hr)]; [done|].
  apply (Hunreachable role Hin).
  by apply (cachedRoleHierarchy_reachable _ _ _ _ _ _ Hc HS).
Qed.

(** C6.  Construction completes for every pair of tables, cyclic ones
    included.  A call of [computeRoleHierarchy] on a role already in
    [visited] returns at once, with an empty result and [visited]
    unchanged; under the constructor's nesting bound every call returns,
    whatever [visited] it is given; a larger bound returns the same
    answer; [computeRolePermissions] is not recursive and returns a
    result for every input; and the constructor returns an object. *)
Theorem construction_terminates :
  (∀ depth role visited,
     role ∈ visited →
     computeRoleHierarchy (S depth) role visited = Some (∅, visited)) ∧
  (∀ role visited,
     is_Some (computeRoleHierarchy nestingBound role visited)) ∧
  (∀ depth role visited,
     nestingBound ≤ depth →
     computeRoleHierarchy depth role visited =
     computeRoleHierarchy nestingBound role visited) ∧
  (∀ hierarchy role visited,
     ∃ result visited',
       computeRolePermissions hierarchy role visited = (result, visited')) ∧
  (∀ ctx, is_Some (constructor ctx)).
Proof.
  assert (Hbound : ∀ role visited,
    is_Some (computeRoleHierarchy nestingBound role visited)).
  { intros role visited. apply computeRoleHierarchy_is_Some.
    unfold nestingBound.
    assert (dom RoleHierarchy ∖ visited ⊆ dom RoleHierarchy) as Hsub
      by set_solver.
    apply subseteq_size in Hsub. rewrite size_dom in Hsub. lia. }
  split_and!.
  - intros depth role visited Hin. simpl. by rewrite decide_True.
  - done.
  - intros depth role visited Hle.
    destruct (Hbound role visited) as [r Hr]. rewrite Hr.
    by eapply computeRoleHierarchy_depth_mono.
  - intros hierarchy role visited.
    destruct (computeRolePermissions hierarchy role visited) as [res V].
    by exists res, V.
  - apply constructor_is_Some.
Qed.

(** C8.  Cached hierarchy closures are transitive: if [a] is in the
    closure cached for [r] and [b] is in the closure cached for [a],
    then [b] is in the closure cached for [r]. *)
Theorem cached_hierarchy_transitive ctx pm r a b Sr Sa :
  constructor ctx = Some pm →
  cachedRoleHierarchy pm !! r = Some Sr → a ∈ Sr →
  cachedRoleHierarchy pm !! a = Some Sa → b ∈ Sa →
  b ∈ Sr.
Proof.
  intros Hc HSr Ha HSa Hb.
  apply (cachedRoleHierarchy_reachable _ _ _ _ _ _ Hc HSr).
  apply (cachedRoleHierarchy_reachable _ _ _ _ _ _ Hc HSr) in Ha.
  apply (cachedRoleHierarchy_reachable _ _ _ _ _ _ Hc HSa) in Hb.
  by etrans.
Qed.

Lemma hasPermission_mono pm (pm' : @PermissionManager Role _ _ Permission _ _) p :
  cachedRolePermissions pm' = cachedRolePermissions pm →
  roles (context pm) ⊆ roles (context pm') →
  permissions (context pm) ⊆ permissions (context pm') →
  hasPermission pm p = true → hasPermission pm' p = true.
Proof.
  intros Hcache Hroles Hperms. rewrite !hasPermission_true, Hcache.
  intros [Hp|(role & P & Hin & HP & Hp)]; [left; by apply Hperms|].
  right. exists role, P. split; [by apply Hroles|done].
Qed.

Lemma insert_at_subseteq {A} (l : list A) (i : nat) (x : A) :
  l ⊆ take i l ++ x :: drop i l.
Proof.
  intros y Hy. rewrite <-(take_drop i l) in Hy.
  apply elem_of_app in Hy as [Hy|Hy]; set_solver.
Qed.

(** C9.  [hasPermission] is monotonic in the principal context: a
    permission the manager built for a context grants is still granted
    by the manager built for that context with one more role, or with
    one more direct permission, wherever in the list it is added. *)
Theorem hasPermission_monotonic ctx i r j q p pm pmRole pmPermission :
  constructor ctx = Some pm →
  constructor (withRole ctx i r) = Some pmRole →
  constructor (withPermission ctx j q) = Some pmPermission →
  hasPermission pm p = true →
  hasPermission pmRole p = true ∧ hasPermission pmPermission p = true.
Proof.
  intros Hc Hr Hq Hp.
  destruct (constructor_inv _ _ _ _ Hc) as (Hctx & Hh & Hperm).
  destruct (constructor_inv _ _ _ _ Hr) as (Hctxr & Hhr & Hpermr).
  destruct (constructor_inv _ _ _ _ Hq) as (Hctxq & Hhq & Hpermq).
  assert (cachedRoleHierarchy pmRole = cachedRoleHierarchy pm) as Hhr'
    by congruence.
  assert (cachedRoleHierarchy pmPermission = cachedRoleHierarchy pm) as Hhq'
    by congruence.
  split; (eapply hasPermission_mono; [| | |exact Hp]).
  - by rewrite Hpermr, Hperm, Hhr'.
  - rewrite Hctx, Hctxr. apply insert_at_subseteq.
  - by rewrite Hctx, Hctxr.
  - by rewrite Hpermq, Hperm, Hhq'.
  - by rewrite Hctx, Hctxq.
  - rewrite Hctx, Hctxq. apply insert_at_subseteq.
Qed.

End Engine.

(** ** The query methods that read no table *)

Section Lists.
Context `{Countable Role, Countable Permission}.
Implicit Types this : @PermissionManager Role _ _ Permission _ _.

(** C7.  [hasPermissions(ps)] is true exactly when [hasPermission]
    holds for every element of [ps], and [hasAnyPermission(ps)] exactly
    when it holds for at least one; so [hasPermissions([])] is true and
    [hasAnyPermission([])] is false. *)
Theorem hasPermissions_every_hasAnyPermission_some this ps :
  (hasPermissions this ps = true ↔
     ∀ p, p ∈ ps → hasPermission this p = true) ∧
  (hasAnyPermission this ps = true ↔
     ∃ p, p ∈ ps ∧ hasPermission this p = true) ∧
  hasPermissions this [] = true ∧
  hasAnyPermission this [] = false.
Proof.
  unfold hasPermissions, hasAnyPermission.
  split_and!; [apply every_true|apply some_true|done|done].
Qed.

(** C10.  On an empty role list [getMaxRole()] returns [undefined],
    the seed [roles[0]] of the reduction, and raises nothing. *)
Theorem getMaxRole_empty this :
  roles (context this) = [] → getMaxRole this = None.
Proof. unfold getMaxRole. by intros ->. Qed.

Lemma getMaxRole_nonempty this first rest :
  roles (context this) = first :: rest →
  getMaxRole this =
    Some (seniorityFold (cachedRoleHierarchy this) first (first :: rest)).
Proof.
  unfold getMaxRole. intros ->. cbn [head]. apply getMaxRole_reduce.
Qed.

End Lists.

(** * Further properties *)

(** ** The traversal on an arbitrary [visited] set *)

Section Provenance.
Context `{Countable Role}.
Variable RoleHierarchy : gmap Role (list Role).

#[local] Abbreviation inherits := (inherits RoleHierarchy).
#[local] Abbreviation computeRoleHierarchy := (computeRoleHierarchy RoleHierarchy).
#[local] Abbreviation entersUnvisited := (entersUnvisited RoleHierarchy).
#[local] Abbreviation reachedAfresh := (reachedAfresh RoleHierarchy).
#[local] Abbreviation callProvenance := (callProvenance RoleHierarchy).

Lemma entersUnvisited_mono (V V0 : gset Role) a b :
  V ⊆ V0 → rtc (entersUnvisited V0) a b → rtc (entersUnvisited V) a b.
Proof.
  intros Hsub. apply rtc_subrel. intros x y [Hedge Hy].
  split; [done|set_solver].
Qed.

(** A role reached afresh from a parent [c] of [role], on a [visited] set
    that has grown since [role] was entered, is reached afresh from
    [role]. *)
Lemma reachedAfresh_via (V V0 : gset Role) role c u :
  role ∉ V → V ⊆ V0 → inherits role c →
  reachedAfresh V0 c u → reachedAfresh V role u.
Proof.
  intros Hrole Hsub Hedge [Hc Hpath]. split; [done|].
  eapply rtc_l; [|by eapply entersUnvisited_mono].
  split; [done|set_solver].
Qed.

Lemma visitInherited_fold_provenance call role V :
  callGuarantee RoleHierarchy call → callProvenance call →
  role ∉ V →
  ∀ l res0 V0 res V',
    (∀ c, c ∈ l → inherits role c) →
    foldl (visitInherited call) (Some (res0, V0)) l = Some (res, V') →
    V ⊆ V0 →
    (∀ u, u ∈ V0 → u ∉ V → reachedAfresh V role u) →
    (∀ w, w ∈ res0 → ∃ u, reachedAfresh V role u ∧ inherits u w) →
    (∀ u, u ∈ V' → u ∉ V → reachedAfresh V role u) ∧
    (∀ w, w ∈ res → ∃ u, reachedAfresh V role u ∧ inherits u w).
Proof.
  intros Hguar Hprov Hrole.
  induction l as [|c l IH]; intros res0 V0 res V' Hl Hfold HV Hnew Hres.
  - simpl in Hfold. by simplify_eq.
  - simpl in Hfold.
    destruct (call c V0) as [[resc Vc]|] eqn:Ecall; simpl in Hfold;
      [|by rewrite foldl_visitInherited_None in Hfold].
    rewrite addEachOf_union in Hfold.
    destruct (Hguar _ _ _ _ Ecall) as (HVc & _).
    destruct (Hprov _ _ _ _ Ecall) as (Hnewc & Hresc).
    assert (Hedge : inherits role c) by (apply Hl; left).
    apply IH in Hfold; [done| | | |].
    + intros c' Hc'. apply Hl. by right.
    + set_solver.
    + intros u Hu HuV. destruct (decide (u ∈ V0)) as [Hu0|Hu0]; [by apply Hnew|].
      eapply reachedAfresh_via; [done..|]. by apply Hnewc.
    + intros w [Hw|[->%elem_of_singleton|Hw]%elem_of_union]%elem_of_union.
      * destruct (Hresc w Hw) as (u & Hu & Huw). exists u. split; [|done].
        by eapply reachedAfresh_via.
      * exists role. split; [|done]. split; [done|apply rtc_refl].
      * by apply Hres.
Qed.

Lemma computeRoleHierarchy_provenance depth :
  callProvenance (computeRoleHierarchy depth).
Proof.
  induction depth as [|depth IH]; intros role V res V' Hcall; [done|].
  simpl in Hcall. destruct (decide (role ∈ V)) as [Hin|Hnin].
  - simplify_eq. set_solver.
  - eapply (visitInherited_fold_provenance _ role V
              (computeRoleHierarchy_guarantee _ depth) IH Hnin);
      [|exact Hcall| | |].
    + by intros c Hc.
    + set_solver.
    + intros u Hu HuV. assert (u = role) as -> by set_solver.
      split; [done|apply rtc_refl].
    + set_solver.
Qed.

(** X2.  The answer of [computeRoleHierarchy] on any [visited] set that
    does not hold [role]: the call leaves in [visited] what was there plus
    exactly the roles reached afresh from [role], and it returns exactly
    the direct parents of the roles reached afresh.  A role behind an
    already visited one is therefore missing from the answer of a nested
    call. *)
Theorem computeRoleHierarchy_on_visited depth role V res V' :
  computeRoleHierarchy depth role V = Some (res, V') →
  role ∉ V →
  (∀ u, u ∈ V' ↔ u ∈ V ∨ reachedAfresh V role u) ∧
  (∀ w, w ∈ res ↔ ∃ u, reachedAfresh V role u ∧ inherits u w).
Proof.
  intros Hcall Hrole.
  destruct (computeRoleHierarchy_guarantee _ _ _ _ _ _ Hcall)
    as (HV & Hin & Hres & _ & Hsucc).
  destruct (computeRoleHierarchy_provenance _ _ _ _ _ Hcall) as (Hnew & Hprov).
  assert (Hfresh : ∀ u, reachedAfresh V role u → u ∈ V' ∧ u ∉ V).
  { intros u [_ Hpath]. revert u Hpath.
    apply (rtc_ind_r (λ u, u ∈ V' ∧ u ∉ V)); [done|].
    intros y z _ [Hedge Hz] [Hy HyV].
    split; [|done]. apply Hres. by apply (Hsucc y). }
  split.
  - intros u. split.
    + intros Hu. destruct (decide (u ∈ V)); [by left|right; by apply Hnew].
    + intros [Hu|Hu]; [set_solver|by apply Hfresh].
  - intros w. split; [apply Hprov|].
    intros (u & [Hu HuV]%Hfresh & Hedge). by apply (Hsucc u).
Qed.

End Provenance.

(** ** The caches in terms of the two tables *)

Section Tablewise.
Context `{Countable Role, Countable Permission}.
Variable RoleHierarchy : gmap Role (list Role).
Variable RoleBasedPermissions : gmap Role (list Permission).

#[local] Abbreviation inherits := (inherits RoleHierarchy).
#[local] Abbreviation reachable := (reachable RoleHierarchy).
#[local] Abbreviation acyclic := (acyclic RoleHierarchy).
#[local] Abbreviation directGrants := (directGrants RoleBasedPermissions).
#[local] Abbreviation constructor := (constructor RoleHierarchy RoleBasedPermissions).
Implicit Types pm : @PermissionManager Role _ _ Permission _ _.
Implicit Types ctx : @PermissionContext Role Permission.

Lemma inherits_is_key a b : inherits a b → is_Some (RoleHierarchy !! a).
Proof.
  unfold inherits. destruct (RoleHierarchy !! a); simpl; [by eexists|].
  by intros ?%elem_of_nil.
Qed.

Lemma reachable_is_key a b : reachable a b → is_Some (RoleHierarchy !! a).
Proof. intros Hreach. destruct Hreach; by eapply inherits_is_key. Qed.

Lemma reachable_is_listed a b : reachable a b → ∃ c, inherits c b.
Proof.
  intros Hreach. induction Hreach as [a b Hedge|a c b _ _ IH]; [by exists a|done].
Qed.

(** The test [cachedRoleHierarchy.get(c)?.has(x)] on a constructed object
    decides whether [x] is reachable from [c]. *)
Lemma cached_has_reachable ctx pm c x :
  constructor ctx = Some pm →
  optHas (cachedRoleHierarchy pm !! c) x = true ↔ reachable c x.
Proof.
  intros Hc. rewrite optHas_true. split.
  - intros (S & HS & Hx).
    by apply (cachedRoleHierarchy_reachable _ _ _ _ _ _ Hc HS).
  - intros Hreach.
    destruct (proj2 (cachedRoleHierarchy_keys _ _ _ _ c Hc)
                (reachable_is_key _ _ Hreach)) as [S HS].
    exists S. split; [done|].
    by apply (cachedRoleHierarchy_reachable _ _ _ _ _ _ Hc HS).
Qed.

Lemma cachedRolePermissions_table ctx pm r P :
  constructor ctx = Some pm →
  cachedRolePermissions pm !! r = Some P →
  ∀ p, p ∈ P ↔
       p ∈ directGrants r ∨ ∃ a, reachable r a ∧ p ∈ directGrants a.
Proof.
  intros Hc HP p.
  rewrite (cachedRolePermissions_elem _ _ _ _ _ _ Hc HP). split.
  - intros [Hp|(a & S & HS & Ha & Hp)]; [by left|right].
    exists a. split; [|done].
    by apply (cachedRoleHierarchy_reachable _ _ _ _ _ _ Hc HS).
  - intros [Hp|(a & Ha & Hp)]; [by left|right].
    apply (cached_has_reachable _ _ _ _ Hc), optHas_true in Ha
      as (S & HS & Ha).
    by exists a, S.
Qed.

(** X1.  On every hierarchy table, cyclic ones included, the closure the
    constructor caches for a role is exactly the set of roles reachable
    from it by one or more inheritance edges: the visited-set guard never
    loses a role of a cached closure, and a role on a cycle is in its own
    closure. *)
Theorem cached_hierarchy_on_any_table ctx pm r S :
  constructor ctx = Some pm →
  cachedRoleHierarchy pm !! r = Some S →
  ∀ x, x ∈ S ↔ reachable r x.
Proof. apply cachedRoleHierarchy_reachable. Qed.

(** X3.  The hierarchy cache has an entry exactly for the keys of the
    hierarchy table and the permission cache exactly for the keys of the
    permission table; a role that is only listed as inherited gets no
    entry. *)
Theorem cache_keys ctx pm :
  constructor ctx = Some pm →
  dom (cachedRoleHierarchy pm) = dom RoleHierarchy ∧
  dom (cachedRolePermissions pm) = dom RoleBasedPermissions.
Proof.
  intros Hc. split; apply set_eq; intros r; rewrite !elem_of_dom.
  - exact (cachedRoleHierarchy_keys _ _ _ _ r Hc).
  - exact (cachedRolePermissions_keys _ _ _ _ r Hc).
Qed.

(** X16.  The permission closure cached for a role holds exactly the
    permissions granted directly to it or to a role reachable from it. *)
Theorem cached_permissions_over_reachable ctx pm r P :
  constructor ctx = Some pm →
  cachedRolePermissions pm !! r = Some P →
  ∀ p, p ∈ P ↔
       p ∈ directGrants r ∨ ∃ a, reachable r a ∧ p ∈ directGrants a.
Proof. apply cachedRolePermissions_table. Qed.

(** X13.  The caches hold nothing that the tables do not: every role of
    a cached hierarchy closure is listed as inherited under some key, and
    every permission of a cached permission closure is granted directly to
    some role. *)
Theorem caches_hold_table_content ctx pm :
  constructor ctx = Some pm →
  (∀ r S x, cachedRoleHierarchy pm !! r = Some S → x ∈ S →
            ∃ a inherited, RoleHierarchy !! a = Some inherited ∧ x ∈ inherited) ∧
  (∀ r P p, cachedRolePermissions pm !! r = Some P → p ∈ P →
            ∃ a granted, RoleBasedPermissions !! a = Some granted ∧ p ∈ granted).
Proof.
  intros Hc. split.
  - intros r S x HS Hx.
    apply (cachedRoleHierarchy_reachable _ _ _ _ _ _ Hc HS) in Hx.
    apply reachable_is_listed in Hx as [a Hedge]. exists a.
    unfold inherits in Hedge.
    destruct (RoleHierarchy !! a) as [l|]; simpl in Hedge;
      [by exists l|by apply elem_of_nil in Hedge].
  - intros r P p HP Hp.
    assert (∃ a, p ∈ directGrants a) as [a Ha].
    { apply (cachedRolePermissions_table _ _ _ _ Hc HP) in Hp
        as [Hp|(a & _ & Hp)]; eauto. }
    exists a. unfold directGrants in Ha.
    destruct (RoleBasedPermissions !! a) as [l|]; simpl in Ha;
      [by exists l|by apply elem_of_nil in Ha].
Qed.


End Tablewise.

(** ** The queries in terms of the two tables *)

Section QueriesTablewise.
Context `{Countable Role, Countable Permission}.
Variable RoleHierarchy : gmap Role (list Role).
Variable RoleBasedPermissions : gmap Role (list Permission).

#[local] Abbreviation reachable := (reachable RoleHierarchy).
#[local] Abbreviation acyclic := (acyclic RoleHierarchy).
#[local] Abbreviation directGrants := (directGrants RoleBasedPermissions).
#[local] Abbreviation constructor := (constructor RoleHierarchy RoleBasedPermissions).
Implicit Types pm : @PermissionManager Role _ _ Permission _ _.
Implicit Types ctx : @PermissionContext Role Permission.

Lemma hasPermission_table ctx pm p :
  constructor ctx = Some pm →
  hasPermission pm p = true ↔
  p ∈ permissions ctx ∨
  ∃ role, role ∈ roles ctx ∧ is_Some (RoleBasedPermissions !! role) ∧
          (p ∈ directGrants role ∨
           ∃ a, reachable role a ∧ p ∈ directGrants a).
Proof.
  intros Hc. destruct (constructor_inv _ _ _ _ Hc) as (Hctx & _).
  rewrite hasPermission_true, Hctx. split.
  - intros [Hp|(role & P & Hin & HP & Hp)]; [by left|right].
    exists role. split; [done|]. split.
    + apply (cachedRolePermissions_keys _ _ _ _ role Hc). by eexists.
    + by apply (cachedRolePermissions_table _ _ _ _ _ _ Hc HP).
  - intros [Hp|(role & Hin & Hkey & Hp)]; [by left|right].
    apply (cachedRolePermissions_keys _ _ _ _ role Hc) in Hkey as [P HP].
    exists role, P. split_and!; [done..|].
    by apply (cachedRolePermissions_table _ _ _ _ _ _ Hc HP).
Qed.

Lemma hasRole_table ctx pm r :
  constructor ctx = Some pm →
  hasRole pm r = true ↔
  r ∈ roles ctx ∨ ∃ role, role ∈ roles ctx ∧ reachable role r.
Proof.
  intros Hc. destruct (constructor_inv _ _ _ _ Hc) as (Hctx & _).
  rewrite hasRole_true, Hctx. split.
  - intros [Hr|(role & S & Hin & HS & Hr)]; [by left|right].
    exists role. split; [done|].
    by apply (cachedRoleHierarchy_reachable _ _ _ _ _ _ Hc HS).
  - intros [Hr|(role & Hin & Hr)]; [by left|right].
    apply (cached_has_reachable _ _ _ _ _ _ Hc), optHas_true in Hr
      as (S & HS & Hr).
    by exists role, S.
Qed.

(** X4.  [hasPermission(p)] on a constructed manager, read off the
    tables: [p] is held directly, or some held role is a key of the
    permission table and [p] is granted directly to that role or to a role
    reachable from it.  Only the held role has to be a key of the
    permission table for its inherited permissions to count. *)
Theorem hasPermission_by_tables ctx pm p :
  constructor ctx = Some pm →
  hasPermission pm p = true ↔
  p ∈ permissions ctx ∨
  ∃ role, role ∈ roles ctx ∧ is_Some (RoleBasedPermissions !! role) ∧
          (p ∈ directGrants role ∨
           ∃ a, reachable role a ∧ p ∈ directGrants a).
Proof. apply hasPermission_table. Qed.

(** X5.  [hasRole(r)] on a constructed manager, read off the hierarchy
    table: [r] is held, or [r] is reachable from a held role. *)
Theorem hasRole_by_tables ctx pm r :
  constructor ctx = Some pm →
  hasRole pm r = true ↔
  r ∈ roles ctx ∨ ∃ role, role ∈ roles ctx ∧ reachable role r.
Proof. apply hasRole_table. Qed.

(** X6.  A held role that is not a key of the permission table grants
    nothing, not even what the roles it inherits from are granted: when no
    held role is a key, [hasPermission(p)] is true only for the directly
    held permissions. *)
Theorem hasPermission_without_permission_key ctx pm p :
  constructor ctx = Some pm →
  (∀ role, role ∈ roles ctx → RoleBasedPermissions !! role = None) →
  hasPermission pm p = true ↔ p ∈ permissions ctx.
Proof.
  intros Hc Hnokey. rewrite (hasPermission_table _ _ _ Hc). split; [|by left].
  intros [Hp|(role & Hin & [g Hkey] & _)]; [done|].
  by rewrite (Hnokey role Hin) in Hkey.
Qed.

(** X7.  Holding a role gives its permissions: when every held role is a
    key of the permission table, [hasRole(r)] and [p] in the permission
    closure cached for [r] imply [hasPermission(p)]. *)
Theorem hasRole_gives_permissions ctx pm r P p :
  constructor ctx = Some pm →
  (∀ role, role ∈ roles ctx → is_Some (RoleBasedPermissions !! role)) →
  hasRole pm r = true →
  cachedRolePermissions pm !! r = Some P → p ∈ P →
  hasPermission pm p = true.
Proof.
  intros Hc Hkeys Hrole HP Hp.
  apply (cachedRolePermissions_table _ _ _ _ _ _ Hc HP) in Hp.
  apply (hasRole_table _ _ _ Hc) in Hrole.
  apply (hasPermission_table _ _ _ Hc). right.
  destruct Hrole as [Hin|(role & Hin & Hreach)].
  - exists r. split_and!; [done|by apply Hkeys|done].
  - exists role. split_and!; [done|by apply Hkeys|]. right.
    destruct Hp as [Hp|(a & Ha & Hp)].
    + by exists r.
    + exists a. split; [by etrans|done].
Qed.

(** X11.  [hasRole] is monotonic in the role list and does not read the
    permission list: a role the manager built for a context reports is
    still reported with one more role in the context, and the answer is
    the same with one more direct permission. *)
Theorem hasRole_monotonic ctx i r' j q r pm pmRole pmPermission :
  constructor ctx = Some pm →
  constructor (withRole ctx i r') = Some pmRole →
  constructor (withPermission ctx j q) = Some pmPermission →
  (hasRole pm r = true → hasRole pmRole r = true) ∧
  hasRole pmPermission r = hasRole pm r.
Proof.
  intros Hc Hr Hq. split.
  - rewrite (hasRole_table _ _ _ Hc), (hasRole_table _ _ _ Hr). simpl.
    assert (Hsub := insert_at_subseteq (roles ctx) i r').
    intros [Hin|(role & Hin & Hreach)]; [left; by apply Hsub|right].
    exists role. split; [by apply Hsub|done].
  - apply eq_true_iff_eq.
    by rewrite (hasRole_table _ _ _ Hc), (hasRole_table _ _ _ Hq).
Qed.

(** X15.  [hasPermission] and [hasRole] read the context lists as sets:
    two contexts with the same roles and the same direct permissions, in
    any order and with any repetitions, get the same answers. *)
Theorem membership_queries_ignore_order ctx ctx' pm pm' p r :
  constructor ctx = Some pm →
  constructor ctx' = Some pm' →
  (∀ x, x ∈ roles ctx ↔ x ∈ roles ctx') →
  (∀ x, x ∈ permissions ctx ↔ x ∈ permissions ctx') →
  hasPermission pm p = hasPermission pm' p ∧ hasRole pm r = hasRole pm' r.
Proof.
  intros Hc Hc' Hroles Hperms. split; apply eq_true_iff_eq.
  - rewrite (hasPermission_table _ _ _ Hc), (hasPermission_table _ _ _ Hc').
    rewrite Hperms. by setoid_rewrite Hroles.
  - rewrite (hasRole_table _ _ _ Hc), (hasRole_table _ _ _ Hc').
    by setoid_rewrite Hroles.
Qed.

End QueriesTablewise.

(** ** [getMaxRole], [hasPermissions] and [hasAnyPermission] *)

Section MaxRole.
Context `{Countable Role, Countable Permission}.
Variable RoleHierarchy : gmap Role (list Role).
Variable RoleBasedPermissions : gmap Role (list Permission).

#[local] Abbreviation reachable := (reachable RoleHierarchy).
#[local] Abbreviation acyclic := (acyclic RoleHierarchy).
#[local] Abbreviation constructor := (constructor RoleHierarchy RoleBasedPermissions).
Implicit Types this pm : @PermissionManager Role _ _ Permission _ _.
Implicit Types ctx : @PermissionContext Role Permission.

Lemma seniorityFold_member (closures : gmap Role (gset Role)) c l :
  seniorityFold closures c l ∈ c :: l.
Proof.
  unfold seniorityFold. revert c.
  induction l as [|x l IH]; intros c; simpl; [set_solver|].
  destruct (optHas (closures !! c) x); specialize (IH c) as IHc;
    specialize (IH x) as IHx; set_solver.
Qed.

Lemma seniorityFold_snoc (closures : gmap Role (gset Role)) c l z :
  seniorityFold closures c (l ++ [z]) =
  if optHas (closures !! seniorityFold closures c l) z
  then seniorityFold closures c l else z.
Proof. unfold seniorityFold. by rewrite foldl_app. Qed.

(** X8.  [getMaxRole()] returns [undefined] exactly on an empty role
    list, and otherwise one of the roles of the list, whatever the caches
    hold. *)
Theorem getMaxRole_is_held this :
  (getMaxRole this = None ↔ roles (context this) = []) ∧
  (∀ m, getMaxRole this = Some m → m ∈ roles (context this)).
Proof.
  destruct (roles (context this)) as [|first rest] eqn:Eroles.
  - unfold getMaxRole. rewrite Eroles. simpl. split; [done|]. by intros m.
  - rewrite (getMaxRole_nonempty _ _ _ Eroles), seniorityFold_seed.
    split; [done|]. intros m [= <-]. apply seniorityFold_member.
Qed.

Lemma seniorityFold_dominant ctx pm m :
  acyclic → constructor ctx = Some pm →
  ∀ l c,
    (∀ x, x ∈ l → x = m ∨ reachable m x) →
    c = m ∨ (reachable m c ∧ m ∈ l) →
    seniorityFold (cachedRoleHierarchy pm) c l = m.
Proof.
  intros Hacyclic Hc.
  assert (Hhas := λ c x, cached_has_reachable _ _ _ _ c x Hc).
  unfold seniorityFold.
  induction l as [|x l IH]; intros c Hl Hcand; simpl.
  - destruct Hcand as [->|[_ ?%elem_of_nil]]; done.
  - apply IH; [intros y Hy; apply Hl; by right|].
    assert (Hx : x = m ∨ reachable m x) by (apply Hl; by left).
    destruct (optHas (cachedRoleHierarchy pm !! c) x) eqn:Etest.
    + apply Hhas in Etest.
      destruct Hcand as [->|[Hmc Hin]]; [by left|].
      destruct Hx as [->|Hx].
      * exfalso. apply (Hacyclic m). by etrans.
      * right. split; [done|].
        apply elem_of_cons in Hin as [->|Hin]; [|done].
        exfalso. by apply (Hacyclic x).
    + destruct Hx as [->|Hx]; [by left|].
      destruct Hcand as [->|[Hmc Hin]].
      * apply Hhas in Hx. congruence.
      * right. split; [done|].
        apply elem_of_cons in Hin as [->|Hin]; [|done].
        exfalso. by apply (Hacyclic x).
Qed.

(** X9.  On an acyclic hierarchy, when the principal holds a role from
    which every other held role is reachable, [getMaxRole()] returns that
    role, wherever it stands in the list and however often roles are
    repeated. *)
Theorem getMaxRole_dominant ctx pm m :
  acyclic →
  constructor ctx = Some pm →
  m ∈ roles ctx →
  (∀ x, x ∈ roles ctx → x = m ∨ reachable m x) →
  getMaxRole pm = Some m.
Proof.
  intros Hacyclic Hc Hin Hdom.
  destruct (constructor_inv _ _ _ _ Hc) as (Hctx & _).
  destruct (roles ctx) as [|first rest] eqn:Eroles; [by apply elem_of_nil in Hin|].
  rewrite <-Hctx in Eroles.
  rewrite (getMaxRole_nonempty _ _ _ Eroles). f_equal.
  eapply seniorityFold_dominant; [done..|].
  destruct (Hdom first) as [->|Hreach]; [by left|by left|by right].
Qed.

(** X10.  [getMaxRole()] is positional: when the last role of the list
    is reachable from none of the roles before it, the last role is
    returned, whatever stands before it. *)
Theorem getMaxRole_last_wins ctx pm earlier z :
  constructor ctx = Some pm →
  roles ctx = earlier ++ [z] →
  (∀ c, c ∈ earlier → ¬ reachable c z) →
  getMaxRole pm = Some z.
Proof.
  intros Hc Hroles Hnone.
  destruct (constructor_inv _ _ _ _ Hc) as (Hctx & _).
  destruct earlier as [|first rest].
  - rewrite <-Hctx in Hroles. simpl in Hroles.
    rewrite (getMaxRole_nonempty _ _ _ Hroles), seniorityFold_seed. done.
  - rewrite <-Hctx in Hroles. simpl in Hroles.
    rewrite (getMaxRole_nonempty _ _ _ Hroles), seniorityFold_seed.
    rewrite seniorityFold_snoc.
    destruct (optHas _ z) eqn:Etest; [|done].
    apply (cached_has_reachable _ _ _ _ _ _ Hc) in Etest.
    exfalso. eapply Hnone; [|exact Etest]. apply seniorityFold_member.
Qed.

(** X14.  [hasPermissions] and [hasAnyPermission] over a concatenation
    are the conjunction and the disjunction of the answers over the two
    parts, and on a non-empty list [hasPermissions] implies
    [hasAnyPermission]. *)
Theorem permission_lists_compose this ps qs :
  hasPermissions this (ps ++ qs) =
    hasPermissions this ps && hasPermissions this qs ∧
  hasAnyPermission this (ps ++ qs) =
    hasAnyPermission this ps || hasAnyPermission this qs ∧
  (ps ≠ [] → hasPermissions this ps = true → hasAnyPermission this ps = true).
Proof.
  unfold hasPermissions, hasAnyPermission.
  split_and!; [apply forallb_app|apply existsb_app|].
  destruct ps as [|p ps]; [done|]. simpl.
  intros _ [-> _]%andb_true_iff. done.
Qed.

End MaxRole.

(** ** Growing the tables *)

Section TableGrowth.
Context `{Countable Role, Countable Permission}.
Variables RoleHierarchy RoleHierarchy' : gmap Role (list Role).
Variables RoleBasedPermissions RoleBasedPermissions' : gmap Role (list Permission).
Implicit Types pm : @PermissionManager Role _ _ Permission _ _.
Implicit Types ctx : @PermissionContext Role Permission.

Lemma reachable_grows a b :
  (∀ x y, inherits RoleHierarchy x y → inherits RoleHierarchy' x y) →
  reachable RoleHierarchy a b → reachable RoleHierarchy' a b.
Proof.
  intros Hsub Hreach. induction Hreach as [a b Hedge|a c b Hedge _ IH].
  - apply tc_once. by apply Hsub.
  - eapply tc_l; [by apply Hsub|done].
Qed.

(** X17.  Nothing in the tables takes an answer away: when the tables
    grow (every inheritance edge, every key of the permission table and
    every direct grant is kept), a permission or a role that the manager
    built on the smaller tables reports is reported by the manager built
    on the larger ones for the same context. *)
Theorem answers_survive_table_growth ctx pm pm' p r :
  (∀ x y, inherits RoleHierarchy x y → inherits RoleHierarchy' x y) →
  (∀ role, is_Some (RoleBasedPermissions !! role) →
           is_Some (RoleBasedPermissions' !! role)) →
  (∀ role q, q ∈ directGrants RoleBasedPermissions role →
             q ∈ directGrants RoleBasedPermissions' role) →
  constructor RoleHierarchy RoleBasedPermissions ctx = Some pm →
  constructor RoleHierarchy' RoleBasedPermissions' ctx = Some pm' →
  (hasPermission pm p = true → hasPermission pm' p = true) ∧
  (hasRole pm r = true → hasRole pm' r = true).
Proof.
  intros Hedges Hkeys Hgrants Hc Hc'. split.
  - rewrite (hasPermission_table _ _ _ _ _ Hc), (hasPermission_table _ _ _ _ _ Hc').
    intros [Hp|(role & Hin & Hkey & Hp)]; [by left|right].
    exists role. split_and!; [done|by apply Hkeys|].
    destruct Hp as [Hp|(a & Ha & Hp)]; [left; by apply Hgrants|right].
    exists a. split; [by apply reachable_grows|by apply Hgrants].
  - rewrite (hasRole_table _ _ _ _ _ Hc), (hasRole_table _ _ _ _ _ Hc').
    intros [Hr|(role & Hin & Hr)]; [by left|right].
    exists role. split; [done|by apply reachable_grows].
Qed.

End TableGrowth.

(** ** [getMaxRole] and the shipped tables *)

Import Config Shipped ShippedFacts.

(** C5.  On a non-empty role list [getMaxRole()] returns the result of
    the left-to-right fold seeded with the first role, in which the
    candidate is replaced by the next examined role exactly when the
    candidate's cached closure does not contain that role.  The source
    examines the first role again at index 0, which leaves the seed in
    place, so the fold over the whole list and the fold over the rest of
    it agree.  Under the shipped configuration a principal holding
    [USER, ADMIN] in that order gets ADMIN. *)
Theorem getMaxRole_is_seniority_fold :
  (∀ `{Countable R, Countable P} (this : @PermissionManager R _ _ P _ _)
     (first : R) (rest : list R),
     roles (context this) = first :: rest →
     getMaxRole this =
       Some (seniorityFold (cachedRoleHierarchy this) first (first :: rest)) ∧
     getMaxRole this =
       Some (seniorityFold (cachedRoleHierarchy this) first rest)) ∧
  (∀ ps, ∃ pm,
     construct (principal [USER; ADMIN] ps) = Some pm ∧
     getMaxRole pm = Some ADMIN).
Proof.
  split.
  - intros R ? ? P ? ? this first rest Hroles.
    split; [|rewrite <-seniorityFold_seed]; by apply getMaxRole_nonempty.
  - intros ps. exists (manager (principal [USER; ADMIN] ps)).
    split; [apply constructor_shipped|]. vm_compute. reflexivity.
Qed.

(** ** The properties at concrete inputs *)

Lemma cached_hierarchy_is_reachable_set_witness :
  acyclic RoleHierarchy ∧
  is_Some (RoleHierarchy !! MANAGER) ∧
  construct (principal [USER] []) = Some (manager (principal [USER] [])) ∧
  ∃ S, cachedRoleHierarchy (manager (principal [USER] [])) !! MANAGER = Some S ∧
       (∀ x, x ∈ S ↔ reachable RoleHierarchy MANAGER x) ∧
       MANAGER ∉ S.
Proof.
  assert (Hacyclic := shipped_acyclic).
  assert (Hkey : is_Some (RoleHierarchy !! MANAGER)) by (vm_compute; eauto).
  assert (Hc := constructor_shipped (principal [USER] [])).
  split_and!; [done..|].
  exact (cached_hierarchy_is_reachable_set _ _ _ _ _ Hacyclic Hkey Hc).
Defined.

Lemma cached_permissions_are_union_witness :
  construct (principal [ADMIN] []) = Some (manager (principal [ADMIN] [])) ∧
  is_Some (RoleBasedPermissions !! ADMIN) ∧
  ∃ P, cachedRolePermissions (manager (principal [ADMIN] [])) !! ADMIN = Some P ∧
       (∀ p, p ∈ P ↔
             p ∈ directGrants RoleBasedPermissions ADMIN ∨
             ∃ a S, cachedRoleHierarchy (manager (principal [ADMIN] [])) !! ADMIN
                      = Some S ∧ a ∈ S ∧
                    p ∈ directGrants RoleBasedPermissions a) ∧
       (∀ p, p ∈ directGrants RoleBasedPermissions ADMIN → p ∈ P) ∧
       (∀ a S Pa,
          cachedRoleHierarchy (manager (principal [ADMIN] [])) !! ADMIN = Some S →
          a ∈ S →
          cachedRolePermissions (manager (principal [ADMIN] [])) !! a = Some Pa →
          Pa ⊆ P).
Proof.
  assert (Hc := constructor_shipped (principal [ADMIN] [])).
  assert (Hkey : is_Some (RoleBasedPermissions !! ADMIN)) by (vm_compute; eauto).
  split_and!; [done..|].
  exact (cached_permissions_are_union _ _ _ _ _ Hc Hkey).
Defined.

Lemma hasPermission_iff_witness :
  construct (principal [USER] []) = Some (manager (principal [USER] [])) ∧
  hasPermission (manager (principal [USER] [])) PRODUCT_READ = true ∧
  ∃ role P, role ∈ [USER] ∧
            cachedRolePermissions (manager (principal [USER] [])) !! role = Some P ∧
            PRODUCT_READ ∈ P.
Proof.
  assert (Hc := constructor_shipped (principal [USER] [])).
  assert (Htrue : hasPermission (manager (principal [USER] [])) PRODUCT_READ = true)
    by (vm_compute; reflexivity).
  split_and!; [done..|].
  destruct (proj1 (proj1 (hasPermission_iff _ _ _ _ PRODUCT_READ Hc)) Htrue)
    as [Hdirect|Hrole]; [|exact Hrole].
  by apply elem_of_nil in Hdirect.
Defined.

Lemma hasRole_iff_witness :
  construct (principal [MANAGER] []) = Some (manager (principal [MANAGER] [])) ∧
  hasRole (manager (principal [MANAGER] [])) USER = true ∧
  ∃ role S, role ∈ [MANAGER] ∧
            cachedRoleHierarchy (manager (principal [MANAGER] [])) !! role = Some S ∧
            USER ∈ S.
Proof.
  assert (Hc := constructor_shipped (principal [MANAGER] [])).
  assert (Htrue : hasRole (manager (principal [MANAGER] [])) USER = true)
    by (vm_compute; reflexivity).
  split_and!; [done..|].
  destruct (proj1 (proj1 (hasRole_iff _ _ _ _ USER Hc)) Htrue)
    as [Hdirect|Hrole]; [|exact Hrole].
  apply list_elem_of_singleton in Hdirect. discriminate Hdirect.
Defined.

Lemma getMaxRole_is_seniority_fold_witness :
  getMaxRole (manager (principal [MANAGER; SUPER_ADMIN; USER] [])) =
  Some SUPER_ADMIN.
Proof.
  destruct (proj1 getMaxRole_is_seniority_fold _ _ _ _ _ _
              (manager (principal [MANAGER; SUPER_ADMIN; USER] []))
              MANAGER [SUPER_ADMIN; USER] eq_refl) as [_ ->].
  vm_compute. reflexivity.
Defined.

Lemma cached_hierarchy_transitive_witness :
  construct (principal [] []) = Some (manager (principal [] [])) ∧
  cachedRoleHierarchy (manager (principal [] [])) !! SUPER_ADMIN =
    Some (list_to_set [ADMIN; MANAGER; PREMIUM_USER; USER]) ∧
  MANAGER ∈ (list_to_set [ADMIN; MANAGER; PREMIUM_USER; USER] : gset Role) ∧
  cachedRoleHierarchy (manager (principal [] [])) !! MANAGER =
    Some (list_to_set [PREMIUM_USER; USER]) ∧
  USER ∈ (list_to_set [PREMIUM_USER; USER] : gset Role) ∧
  USER ∈ (list_to_set [ADMIN; MANAGER; PREMIUM_USER; USER] : gset Role).
Proof.
  assert (Hc := constructor_shipped (principal [] [])).
  assert (HSr : cachedRoleHierarchy (manager (principal [] [])) !! SUPER_ADMIN =
                Some (list_to_set [ADMIN; MANAGER; PREMIUM_USER; USER]))
    by (vm_compute; reflexivity).
  assert (HSa : cachedRoleHierarchy (manager (principal [] [])) !! MANAGER =
                Some (list_to_set [PREMIUM_USER; USER]))
    by (vm_compute; reflexivity).
  assert (Ha : MANAGER ∈ (list_to_set [ADMIN; MANAGER; PREMIUM_USER; USER] : gset Role))
    by set_solver.
  assert (Hb : USER ∈ (list_to_set [PREMIUM_USER; USER] : gset Role))
    by set_solver.
  split_and!; [done..|].
  exact (cached_hierarchy_transitive _ _ _ _ _ _ _ _ _ Hc HSr Ha HSa Hb).
Defined.

Lemma hasPermission_monotonic_witness :
  construct (principal [USER] []) = Some (manager (principal [USER] [])) ∧
  construct (withRole (principal [USER] []) 0 ADMIN) =
    Some (manager (principal [ADMIN; USER] [])) ∧
  construct (withPermission (principal [USER] []) 0 USER_DELETE) =
    Some (manager (principal [USER] [USER_DELETE])) ∧
  hasPermission (manager (principal [USER] [])) PRODUCT_READ = true ∧
  hasPermission (manager (principal [ADMIN; USER] [])) PRODUCT_READ = true ∧
  hasPermission (manager (principal [USER] [USER_DELETE])) PRODUCT_READ = true.
Proof.
  assert (Hc := constructor_shipped (principal [USER] [])).
  assert (Hr := constructor_shipped (withRole (principal [USER] []) 0 ADMIN)).
  assert (Hq := constructor_shipped
                  (withPermission (principal [USER] []) 0 USER_DELETE)).
  assert (Hp : hasPermission (manager (principal [USER] [])) PRODUCT_READ = true)
    by (vm_compute; reflexivity).
  split; [done|]. split; [exact Hr|]. split; [exact Hq|]. split; [done|].
  exact (hasPermission_monotonic _ _ _ _ _ _ _ _ _ _ _ Hc Hr Hq Hp).
Defined.

Lemma getMaxRole_empty_witness :
  roles (context (manager (principal [] [PRODUCT_READ]))) = [] ∧
  getMaxRole (manager (principal [] [PRODUCT_READ])) = None.
Proof.
  split; [reflexivity|].
  exact (getMaxRole_empty (manager (principal [] [PRODUCT_READ])) eq_refl).
Defined.

(** ** The further properties at concrete inputs *)

Import Scenarios.

Lemma constructor_cyclic ctx :
  constructor Tables.cyclic (∅ : gmap Role (list Permission)) ctx =
  Some (cyclicManager ctx).
Proof. vm_compute. reflexivity. Qed.

Lemma constructor_sparse ctx :
  constructor RoleHierarchy sparsePermissions ctx = Some (sparseManager ctx).
Proof. vm_compute. reflexivity. Qed.

Lemma shipped_closure_reachable r S x :
  hierarchyClosures !! r = Some S → x ∈ S ↔ reachable RoleHierarchy r x.
Proof.
  intros HS.
  exact (cachedRoleHierarchy_reachable _ _ _ _ _ _
           (constructor_shipped userOnly) HS x).
Qed.

Lemma cached_hierarchy_on_any_table_witness :
  constructor Tables.cyclic (∅ : gmap Role (list Permission)) userOnly =
    Some (cyclicManager userOnly) ∧
  cachedRoleHierarchy (cyclicManager userOnly) !! ADMIN =
    Some (list_to_set [MANAGER; ADMIN]) ∧
  ∀ x, x ∈ (list_to_set [MANAGER; ADMIN] : gset Role) ↔
       reachable Tables.cyclic ADMIN x.
Proof.
  assert (Hc := constructor_cyclic userOnly).
  assert (HS : cachedRoleHierarchy (cyclicManager userOnly) !! ADMIN =
               Some (list_to_set [MANAGER; ADMIN])) by (vm_compute; reflexivity).
  split_and!; [done..|].
  exact (cached_hierarchy_on_any_table _ _ _ _ _ _ Hc HS).
Defined.

Lemma computeRoleHierarchy_on_visited_witness :
  computeRoleHierarchy Tables.diamond 5 MANAGER
    (list_to_set [SUPER_ADMIN; ADMIN; PREMIUM_USER; USER]) =
    Some (list_to_set [PREMIUM_USER],
          list_to_set [SUPER_ADMIN; ADMIN; PREMIUM_USER; USER; MANAGER]) ∧
  (MANAGER ∉ (list_to_set [SUPER_ADMIN; ADMIN; PREMIUM_USER; USER] : gset Role)) ∧
  (∀ u, u ∈ (list_to_set [SUPER_ADMIN; ADMIN; PREMIUM_USER; USER; MANAGER]
              : gset Role) ↔
        u ∈ (list_to_set [SUPER_ADMIN; ADMIN; PREMIUM_USER; USER] : gset Role) ∨
        reachedAfresh Tables.diamond
          (list_to_set [SUPER_ADMIN; ADMIN; PREMIUM_USER; USER]) MANAGER u) ∧
  (∀ w, w ∈ (list_to_set [PREMIUM_USER] : gset Role) ↔
        ∃ u, reachedAfresh Tables.diamond
               (list_to_set [SUPER_ADMIN; ADMIN; PREMIUM_USER; USER]) MANAGER u ∧
             inherits Tables.diamond u w).
Proof.
  assert (Hcall := diamond_nested_call).
  assert (Hrole : MANAGER ∉ (list_to_set [SUPER_ADMIN; ADMIN; PREMIUM_USER; USER]
                             : gset Role)) by set_solver.
  split; [done|]. split; [done|].
  exact (computeRoleHierarchy_on_visited _ _ _ _ _ _ Hcall Hrole).
Defined.

Lemma cache_keys_witness :
  construct userOnly = Some (manager userOnly) ∧
  dom (cachedRoleHierarchy (manager userOnly)) = dom RoleHierarchy ∧
  dom (cachedRolePermissions (manager userOnly)) = dom RoleBasedPermissions.
Proof.
  assert (Hc := constructor_shipped userOnly).
  split; [done|]. exact (cache_keys _ _ _ _ Hc).
Defined.

Lemma hasPermission_by_tables_witness :
  construct adminOnly = Some (manager adminOnly) ∧
  (hasPermission (manager adminOnly) PRODUCT_READ = true ↔
   PRODUCT_READ ∈ permissions adminOnly ∨
   ∃ role, role ∈ roles adminOnly ∧ is_Some (RoleBasedPermissions !! role) ∧
           (PRODUCT_READ ∈ directGrants RoleBasedPermissions role ∨
            ∃ a, reachable RoleHierarchy role a ∧
                 PRODUCT_READ ∈ directGrants RoleBasedPermissions a)).
Proof.
  assert (Hc := constructor_shipped adminOnly).
  split; [done|]. exact (hasPermission_by_tables _ _ _ _ PRODUCT_READ Hc).
Defined.

Lemma hasRole_by_tables_witness :
  construct adminOnly = Some (manager adminOnly) ∧
  (hasRole (manager adminOnly) USER = true ↔
   USER ∈ roles adminOnly ∨
   ∃ role, role ∈ roles adminOnly ∧ reachable RoleHierarchy role USER).
Proof.
  assert (Hc := constructor_shipped adminOnly).
  split; [done|]. exact (hasRole_by_tables _ _ _ _ USER Hc).
Defined.

Lemma hasPermission_without_permission_key_witness :
  constructor RoleHierarchy sparsePermissions adminOnly =
    Some (sparseManager adminOnly) ∧
  (∀ role, role ∈ roles adminOnly → sparsePermissions !! role = None) ∧
  hasRole (sparseManager adminOnly) USER = true ∧
  (hasPermission (sparseManager adminOnly) PRODUCT_READ = true ↔
   PRODUCT_READ ∈ permissions adminOnly).
Proof.
  assert (Hc := constructor_sparse adminOnly).
  assert (Hnokey : ∀ role, role ∈ roles adminOnly →
                           sparsePermissions !! role = None).
  { intros role ->%list_elem_of_singleton. vm_compute. reflexivity. }
  split; [done|]. split; [done|]. split; [vm_compute; reflexivity|].
  exact (hasPermission_without_permission_key _ _ _ _ PRODUCT_READ Hc Hnokey).
Defined.

Lemma hasRole_gives_permissions_witness :
  construct adminOnly = Some (manager adminOnly) ∧
  (∀ role, role ∈ roles adminOnly → is_Some (RoleBasedPermissions !! role)) ∧
  hasRole (manager adminOnly) USER = true ∧
  cachedRolePermissions (manager adminOnly) !! USER =
    Some (list_to_set userGrants) ∧
  PRODUCT_READ ∈ (list_to_set userGrants : gset Permission) ∧
  hasPermission (manager adminOnly) PRODUCT_READ = true.
Proof.
  assert (Hc := constructor_shipped adminOnly).
  assert (Hkeys : ∀ role, role ∈ roles adminOnly →
                          is_Some (RoleBasedPermissions !! role)).
  { intros role ->%list_elem_of_singleton. vm_compute. eauto. }
  assert (Hrole : hasRole (manager adminOnly) USER = true)
    by (vm_compute; reflexivity).
  assert (HP : cachedRolePermissions (manager adminOnly) !! USER =
               Some (list_to_set userGrants)) by (vm_compute; reflexivity).
  assert (Hp : PRODUCT_READ ∈ (list_to_set userGrants : gset Permission))
    by (unfold userGrants; set_solver).
  split_and!; [done..|].
  exact (hasRole_gives_permissions _ _ _ _ _ _ _ Hc Hkeys Hrole HP Hp).
Defined.

Lemma getMaxRole_dominant_witness :
  acyclic RoleHierarchy ∧
  construct mixedRoles = Some (manager mixedRoles) ∧
  ADMIN ∈ roles mixedRoles ∧
  (∀ x, x ∈ roles mixedRoles → x = ADMIN ∨ reachable RoleHierarchy ADMIN x) ∧
  getMaxRole (manager mixedRoles) = Some ADMIN.
Proof.
  assert (Hacyclic := shipped_acyclic).
  assert (Hc := constructor_shipped mixedRoles).
  assert (Hin : ADMIN ∈ roles mixedRoles) by (simpl; set_solver).
  assert (HS : hierarchyClosures !! ADMIN =
               Some (list_to_set [MANAGER; PREMIUM_USER; USER]))
    by (vm_compute; reflexivity).
  assert (Hdom : ∀ x, x ∈ roles mixedRoles →
                      x = ADMIN ∨ reachable RoleHierarchy ADMIN x).
  { intros x Hx. simpl in Hx.
    destruct (decide (x = ADMIN)) as [->|Hne]; [by left|right].
    apply (shipped_closure_reachable _ _ _ HS). set_solver. }
  split_and!; [done..|].
  exact (getMaxRole_dominant _ _ _ _ _ Hacyclic Hc Hin Hdom).
Defined.

Lemma getMaxRole_last_wins_witness :
  construct adminThenSuper = Some (manager adminThenSuper) ∧
  roles adminThenSuper = [ADMIN] ++ [SUPER_ADMIN] ∧
  (∀ c, c ∈ [ADMIN] → ¬ reachable RoleHierarchy c SUPER_ADMIN) ∧
  getMaxRole (manager adminThenSuper) = Some SUPER_ADMIN.
Proof.
  assert (Hc := constructor_shipped adminThenSuper).
  assert (Hroles : roles adminThenSuper = [ADMIN] ++ [SUPER_ADMIN])
    by reflexivity.
  assert (HS : hierarchyClosures !! ADMIN =
               Some (list_to_set [MANAGER; PREMIUM_USER; USER]))
    by (vm_compute; reflexivity).
  assert (Hnone : ∀ c, c ∈ [ADMIN] → ¬ reachable RoleHierarchy c SUPER_ADMIN).
  { intros c ->%list_elem_of_singleton Hreach.
    apply (shipped_closure_reachable _ _ _ HS) in Hreach. set_solver. }
  split_and!; [done..|].
  exact (getMaxRole_last_wins _ _ _ _ _ _ Hc Hroles Hnone).
Defined.

Lemma hasRole_monotonic_witness :
  construct userOnly = Some (manager userOnly) ∧
  construct (withRole userOnly 1 ADMIN) = Some (manager (withRole userOnly 1 ADMIN)) ∧
  construct (withPermission userOnly 0 USER_DELETE) =
    Some (manager (withPermission userOnly 0 USER_DELETE)) ∧
  (hasRole (manager userOnly) USER = true →
   hasRole (manager (withRole userOnly 1 ADMIN)) USER = true) ∧
  hasRole (manager (withPermission userOnly 0 USER_DELETE)) USER =
    hasRole (manager userOnly) USER.
Proof.
  assert (Hc := constructor_shipped userOnly).
  assert (Hr := constructor_shipped (withRole userOnly 1 ADMIN)).
  assert (Hq := constructor_shipped (withPermission userOnly 0 USER_DELETE)).
  split; [done|]. split; [exact Hr|]. split; [exact Hq|].
  exact (hasRole_monotonic _ _ _ _ _ _ _ USER _ _ _ Hc Hr Hq).
Defined.


Lemma caches_hold_table_content_witness :
  construct userOnly = Some (manager userOnly) ∧
  (∀ r S x, cachedRoleHierarchy (manager userOnly) !! r = Some S → x ∈ S →
            ∃ a inherited, RoleHierarchy !! a = Some inherited ∧ x ∈ inherited) ∧
  (∀ r P p, cachedRolePermissions (manager userOnly) !! r = Some P → p ∈ P →
            ∃ a granted, RoleBasedPermissions !! a = Some granted ∧ p ∈ granted).
Proof.
  assert (Hc := constructor_shipped userOnly).
  split; [done|]. exact (caches_hold_table_content _ _ _ _ Hc).
Defined.

Lemma membership_queries_ignore_order_witness :
  construct userAdmin = Some (manager userAdmin) ∧
  construct adminUserAdmin = Some (manager adminUserAdmin) ∧
  (∀ x, x ∈ roles userAdmin ↔ x ∈ roles adminUserAdmin) ∧
  (∀ x, x ∈ permissions userAdmin ↔ x ∈ permissions adminUserAdmin) ∧
  hasPermission (manager userAdmin) USER_DELETE =
    hasPermission (manager adminUserAdmin) USER_DELETE ∧
  hasRole (manager userAdmin) MANAGER = hasRole (manager adminUserAdmin) MANAGER.
Proof.
  assert (Hc := constructor_shipped userAdmin).
  assert (Hc' := constructor_shipped adminUserAdmin).
  assert (Hroles : ∀ x, x ∈ roles userAdmin ↔ x ∈ roles adminUserAdmin)
    by (intros x; simpl; set_solver).
  assert (Hperms : ∀ x, x ∈ permissions userAdmin ↔ x ∈ permissions adminUserAdmin)
    by (intros x; simpl; set_solver).
  split_and!; [done..| |];
    apply (membership_queries_ignore_order _ _ _ _ _ _ USER_DELETE MANAGER
             Hc Hc' Hroles Hperms).
Defined.

Lemma cached_permissions_over_reachable_witness :
  construct userOnly = Some (manager userOnly) ∧
  cachedRolePermissions (manager userOnly) !! MANAGER =
    Some (list_to_set managerGrants) ∧
  ∀ p, p ∈ (list_to_set managerGrants : gset Permission) ↔
       p ∈ directGrants RoleBasedPermissions MANAGER ∨
       ∃ a, reachable RoleHierarchy MANAGER a ∧
            p ∈ directGrants RoleBasedPermissions a.
Proof.
  assert (Hc := constructor_shipped userOnly).
  assert (HP : cachedRolePermissions (manager userOnly) !! MANAGER =
               Some (list_to_set managerGrants)) by (vm_compute; reflexivity).
  split; [done|]. split; [done|].
  exact (cached_permissions_over_reachable _ _ _ _ _ _ Hc HP).
Defined.

Lemma answers_survive_table_growth_witness :
  (∀ x y, inherits RoleHierarchy x y → inherits RoleHierarchy x y) ∧
  (∀ role, is_Some (sparsePermissions !! role) →
           is_Some (RoleBasedPermissions !! role)) ∧
  (∀ role q, q ∈ directGrants sparsePermissions role →
             q ∈ directGrants RoleBasedPermissions role) ∧
  constructor RoleHierarchy sparsePermissions userOnly =
    Some (sparseManager userOnly) ∧
  construct userOnly = Some (manager userOnly) ∧
  (hasPermission (sparseManager userOnly) PRODUCT_READ = true →
   hasPermission (manager userOnly) PRODUCT_READ = true) ∧
  (hasRole (sparseManager userOnly) USER = true →
   hasRole (manager userOnly) USER = true).
Proof.
  assert (Hedges : ∀ x y : Role,
            inherits RoleHierarchy x y → inherits RoleHierarchy x y)
    by (by intros x y).
  assert (Hkeys : ∀ role, is_Some (sparsePermissions !! role) →
                          is_Some (RoleBasedPermissions !! role)).
  { intros role _. destruct role; vm_compute; eauto. }
  assert (Hgrants : ∀ role q, q ∈ directGrants sparsePermissions role →
                              q ∈ directGrants RoleBasedPermissions role).
  { intros role q. destruct role; vm_compute; intros Hq;
      first [exact Hq|inversion Hq]. }
  assert (Hc := constructor_sparse userOnly).
  assert (Hc' := constructor_shipped userOnly).
  split_and!; [done..| |];
    apply (answers_survive_table_growth _ _ _ _ _ _ _ PRODUCT_READ USER
             Hedges Hkeys Hgrants Hc Hc').
Defined.
